(** * hdrhistogram: a shallow embedding of [hdr.go] and its properties

    The Go program stores a histogram in one struct with a slice of
    64-bit counters.  Integers are modelled as [Z] with the two's
    complement wrap-around of [int32]/[int64] written out, the slice as
    a [list Z] read with stdpp's lookup and written with stdpp's
    insert, a panic (index out of range) as [None], and a Go [error]
    return value as an [option error] next to the state the call leaves
    behind. *)

From Stdlib Require Import ZArith Lia.
From Stdlib Require Import Uint63 PrimFloat FloatOps SpecFloat.
From stdpp Require Import base option list.

Local Open Scope Z_scope.

(** ** Machine integers *)

Module Int.

Definition wrap (w : Z) (z : Z) : Z :=
  (z + 2 ^ (w - 1)) mod 2 ^ w - 2 ^ (w - 1).

Definition wrap32 : Z -> Z := wrap 32.
Definition wrap64 : Z -> Z := wrap 64.

Definition in32 (z : Z) : Prop := - 2 ^ 31 <= z < 2 ^ 31.
Definition in64 (z : Z) : Prop := - 2 ^ 63 <= z < 2 ^ 63.

(** [x << uint(s)] on an [int64]: Go converts the count to an unsigned
    word, so a negative count is a huge one, and a count of 64 or more
    shifts every bit out. *)
Definition shl64 (x s : Z) : Z :=
  if (0 <=? s) && (s <? 64) then wrap64 (Z.shiftl x s) else 0.

Definition shl32 (x s : Z) : Z :=
  if (0 <=? s) && (s <? 32) then wrap32 (Z.shiftl x s) else 0.

(** [x >> uint(s)] on an [int64] is arithmetic: the sign fills. *)
Definition shr64 (x s : Z) : Z :=
  if (0 <=? s) && (s <? 64) then Z.shiftr x s
  else if x <? 0 then -1 else 0.

End Int.
Import Int.

(** ** The data model *)

Record Histogram : Type := mkHistogram {
  lowestTrackableValue : Z;
  highestTrackableValue : Z;
  unitMagnitude : Z;
  significantFigures : Z;
  subBucketHalfCountMagnitude : Z;
  subBucketHalfCount : Z;
  subBucketMask : Z;
  subBucketCount : Z;
  bucketCount : Z;
  countsLen : Z;
  totalCount : Z;
  counts : list Z
}.

Definition set_counts (h : Histogram) (t : Z) (cs : list Z) : Histogram :=
  mkHistogram (lowestTrackableValue h) (highestTrackableValue h)
    (unitMagnitude h) (significantFigures h)
    (subBucketHalfCountMagnitude h) (subBucketHalfCount h)
    (subBucketMask h) (subBucketCount h) (bucketCount h) (countsLen h)
    t cs.

Inductive error : Type :=
| ErrTooLarge (v : Z).

(** ** [bitLen] and [power] *)

Fixpoint bitLen_loop (fuel : nat) (x n : Z) : Z * Z :=
  match fuel with
  | O => (x, n)
  | S fuel' =>
      if 0x8000 <=? x then bitLen_loop fuel' (Z.shiftr x 16) (wrap64 (n + 16))
      else (x, n)
  end.

(** An [int64] is below [0x8000] after three shifts by 16, so four
    rounds of fuel run the loop of the source to its end. *)
Definition bitLen (x : Z) : Z :=
  let '(x, n) := bitLen_loop 4 x 0 in
  let '(x, n) := if 0x80 <=? x then (Z.shiftr x 8, wrap64 (n + 8)) else (x, n) in
  let '(x, n) := if 0x8 <=? x then (Z.shiftr x 4, wrap64 (n + 4)) else (x, n) in
  let '(x, n) := if 0x2 <=? x then (Z.shiftr x 2, wrap64 (n + 2)) else (x, n) in
  if 0x1 <=? x then wrap64 (n + 1) else n.

Fixpoint power_loop (fuel : nat) (base exp n : Z) : Z :=
  match fuel with
  | O => n
  | S fuel' =>
      if 0 <? exp then power_loop fuel' base (wrap64 (exp - 1)) (wrap64 (n * base))
      else n
  end.

Definition power (base exp : Z) : Z := power_loop (Z.to_nat exp) base exp 1.

(** ** Index arithmetic *)

Definition getBucketIndex (h : Histogram) (v : Z) : Z :=
  let pow2Ceiling := bitLen (Z.lor v (subBucketMask h)) in
  wrap32 (wrap64 (wrap64 (pow2Ceiling - unitMagnitude h)
                  - wrap32 (subBucketHalfCountMagnitude h + 1))).

Definition getSubBucketIdx (h : Histogram) (v idx : Z) : Z :=
  wrap32 (shr64 v (wrap64 (idx + unitMagnitude h))).

Definition countsIndex (h : Histogram) (bucketIdx subBucketIdx : Z) : Z :=
  let bucketBaseIdx :=
    shl32 (wrap32 (bucketIdx + 1)) (subBucketHalfCountMagnitude h) in
  let offsetInBucket := wrap32 (subBucketIdx - subBucketHalfCount h) in
  wrap32 (bucketBaseIdx + offsetInBucket).

Definition countsIndexFor (h : Histogram) (v : Z) : Z :=
  let bucketIdx := getBucketIndex h v in
  let subBucketIdx := getSubBucketIdx h v bucketIdx in
  countsIndex h bucketIdx subBucketIdx.

Definition valueFromIndex (h : Histogram) (bucketIdx subBucketIdx : Z) : Z :=
  shl64 subBucketIdx (wrap64 (bucketIdx + unitMagnitude h)).

Definition sizeOfEquivalentValueRange (h : Histogram) (v : Z) : Z :=
  let bucketIdx := getBucketIndex h v in
  let subBucketIdx := getSubBucketIdx h v bucketIdx in
  let adjustedBucket :=
    if subBucketCount h <=? subBucketIdx then wrap32 (bucketIdx + 1)
    else bucketIdx in
  shl64 1 (wrap64 (unitMagnitude h + adjustedBucket)).

Definition lowestEquivalentValue (h : Histogram) (v : Z) : Z :=
  let bucketIdx := getBucketIndex h v in
  let subBucketIdx := getSubBucketIdx h v bucketIdx in
  valueFromIndex h bucketIdx subBucketIdx.

Definition nextNonEquivalentValue (h : Histogram) (v : Z) : Z :=
  wrap64 (lowestEquivalentValue h v + sizeOfEquivalentValueRange h v).

Definition highestEquivalentValue (h : Histogram) (v : Z) : Z :=
  wrap64 (nextNonEquivalentValue h v - 1).

Definition getCountAtIndex (h : Histogram) (bucketIdx subBucketIdx : Z)
  : option Z :=
  let i := countsIndex h bucketIdx subBucketIdx in
  if i <? 0 then None else counts h !! Z.to_nat i.

(** ** A small state monad with failure

    A computation of type [M S A] runs on a state [S]; [None] means that
    the Go code does not return (a run-time panic, or a loop that has
    used up the fuel of its model). *)

Definition M (S A : Type) : Type := S -> option (A * S).

Definition ret {S A : Type} (a : A) : M S A := fun s => Some (a, s).

Definition bind {S A B : Type} (m : M S A) (k : A -> M S B) : M S B :=
  fun s => match m s with
           | Some (a, s') => k a s'
           | None => None
           end.

Notation "'let*' x := m 'in' k" := (bind m (fun x => k))
  (at level 10, x name, m at level 100, k at level 200).

(** ** Construction *)

(** [bucketsNeeded] loop of [New]: [trackableValue <<= 1] until it
    reaches [maxValue]. *)
Fixpoint bucketsNeeded_loop (fuel : nat) (maxValue trackableValue bucketsNeeded : Z)
  : option Z :=
  match fuel with
  | O => None
  | S fuel' =>
      if trackableValue <? maxValue
      then bucketsNeeded_loop fuel' maxValue (shl64 trackableValue 1)
             (wrap32 (bucketsNeeded + 1))
      else Some bucketsNeeded
  end.

(** The two logarithms of [New] are floating-point expressions.
    [subBucketCountMagnitude] is the ceiling of the float32 quotient
    [log(2*10^sigfigs) / log 2]; for the five admitted values of
    [sigfigs] the quotient is 4.32, 7.64, 10.97, 14.29 and 17.61, far
    from an integer, so the ceiling is the exact [Z.log2_up].
    [unitMagnitude] is the floor of [log(minValue) / log 2], taken here
    as the exact [Z.log2] (which is 0 on values below 1, where the
    source clamps to 0).  The loop that counts buckets ends within 64
    doublings or never: the fuel is 65. *)
Definition New (minValue maxValue sigfigs : Z) : option Histogram :=
  if (sigfigs <? 1) || (5 <? sigfigs) then None
  else
    let largestValueWithSingleUnitResolution := wrap64 (2 * power 10 sigfigs) in
    let subBucketCountMagnitude :=
      wrap32 (Z.log2_up largestValueWithSingleUnitResolution) in
    let subBucketHalfCountMagnitude :=
      if subBucketCountMagnitude <? 1 then 1 else subBucketCountMagnitude in
    let subBucketHalfCountMagnitude := wrap32 (subBucketHalfCountMagnitude - 1) in
    let unitMagnitude := wrap32 (Z.log2 minValue) in
    let unitMagnitude := if unitMagnitude <? 0 then 0 else unitMagnitude in
    let subBucketCount := wrap32 (2 ^ (subBucketHalfCountMagnitude + 1)) in
    let subBucketHalfCount := Z.quot subBucketCount 2 in
    let subBucketMask := shl64 (wrap32 (subBucketCount - 1)) unitMagnitude in
    let trackableValue := wrap32 (subBucketCount - 1) in
    match bucketsNeeded_loop 65 maxValue trackableValue 1 with
    | None => None
    | Some bucketCount =>
        let countsLen :=
          wrap32 (wrap32 (bucketCount + 1) * Z.quot subBucketCount 2) in
        if countsLen <? 0 then None
        else Some
          {| lowestTrackableValue := minValue;
             highestTrackableValue := maxValue;
             unitMagnitude := unitMagnitude;
             significantFigures := sigfigs;
             subBucketHalfCountMagnitude := subBucketHalfCountMagnitude;
             subBucketHalfCount := subBucketHalfCount;
             subBucketMask := subBucketMask;
             subBucketCount := subBucketCount;
             bucketCount := bucketCount;
             countsLen := countsLen;
             totalCount := 0;
             counts := replicate (Z.to_nat countsLen) 0 |}
    end.

(** ** Recording *)

Definition RecordValues (v n : Z) : M Histogram (option error) := fun h =>
  let idx := countsIndexFor h v in
  if (idx <? 0) || (countsLen h <=? idx) then Some (Some (ErrTooLarge v), h)
  else
    match counts h !! Z.to_nat idx with
    | None => None
    | Some c =>
        Some (None,
              set_counts h (wrap64 (totalCount h + n))
                (<[Z.to_nat idx := wrap64 (c + n)]> (counts h)))
    end.

Definition RecordValue (v : Z) : M Histogram (option error) :=
  RecordValues v 1.

Fixpoint RecordCorrectedValue_loop (fuel : nat) (expectedInterval missingValue : Z)
  : M Histogram (option error) :=
  match fuel with
  | O => fun _ => None
  | S fuel' =>
      if expectedInterval <=? missingValue then
        let* err := RecordValue missingValue in
        match err with
        | Some e => ret (Some e)
        | None =>
            RecordCorrectedValue_loop fuel' expectedInterval
              (wrap64 (missingValue - expectedInterval))
        end
      else ret None
  end.

Definition RecordCorrectedValue (v expectedInterval : Z)
  : M Histogram (option error) :=
  let* err := RecordValue v in
  match err with
  | Some e => ret (Some e)
  | None =>
      if (expectedInterval <=? 0) || (v <=? expectedInterval) then ret None
      else
        let missingValue := wrap64 (v - expectedInterval) in
        RecordCorrectedValue_loop (Z.to_nat (v / expectedInterval))
          expectedInterval missingValue
  end.

Definition Reset (h : Histogram) : Histogram :=
  set_counts h 0 (replicate (length (counts h)) 0).

(** ** The base iterator

    The iterator of the source holds a pointer to its histogram and
    reads it anew at every call of [next]; here the histogram that the
    pointer leads to at the time of the call is an argument of [next],
    and the remaining fields are the state. *)

Record iterator : Type := mkIterator {
  bucketIdx : Z;
  subBucketIdx : Z;
  countAtIdx : Z;
  countToIdx : Z;
  valueFromIdx : Z;
  i_highestEquivalentValue : Z
}.

Definition new_iterator : iterator :=
  {| bucketIdx := 0; subBucketIdx := -1; countAtIdx := 0; countToIdx := 0;
     valueFromIdx := 0; i_highestEquivalentValue := 0 |}.

Definition set_position (i : iterator) (b sb : Z) : iterator :=
  {| bucketIdx := b; subBucketIdx := sb; countAtIdx := countAtIdx i;
     countToIdx := countToIdx i; valueFromIdx := valueFromIdx i;
     i_highestEquivalentValue := i_highestEquivalentValue i |}.

Definition iterator_next (h : Histogram) : M iterator bool := fun i =>
  if totalCount h <=? countToIdx i then Some (false, i)
  else
    let sb := wrap32 (subBucketIdx i + 1) in
    let '(b, sb) :=
      if subBucketCount h <=? sb
      then (wrap32 (bucketIdx i + 1), subBucketHalfCount h)
      else (bucketIdx i, sb) in
    if bucketCount h <=? b then Some (false, set_position i b sb)
    else
      match getCountAtIndex h b sb with
      | None => None
      | Some c =>
          let v := valueFromIndex h b sb in
          Some (true,
                {| bucketIdx := b; subBucketIdx := sb; countAtIdx := c;
                   countToIdx := wrap64 (countToIdx i + c);
                   valueFromIdx := v;
                   i_highestEquivalentValue := highestEquivalentValue h v |})
      end.

(** Every successful [next] moves to a new slot, and there are
    [countsLen] of them: this is the fuel of the loops that drive an
    iterator to its end. *)
Definition walk_fuel (h : Histogram) : nat := S (Z.to_nat (countsLen h)).

(** ** Statistics *)

Fixpoint Max_loop (fuel : nat) (h : Histogram) (max : Z) : M iterator Z :=
  match fuel with
  | O => fun _ => None
  | S fuel' =>
      let* more := iterator_next h in
      if more : bool then
        fun i =>
          Max_loop fuel' h
            (if countAtIdx i =? 0 then max else i_highestEquivalentValue i) i
      else ret max
  end.

Definition Max (h : Histogram) : option Z :=
  match Max_loop (walk_fuel h) h 0 new_iterator with
  | Some (max, _) => Some (lowestEquivalentValue h max)
  | None => None
  end.

Fixpoint Min_loop (fuel : nat) (h : Histogram) (min : Z) : M iterator Z :=
  match fuel with
  | O => fun _ => None
  | S fuel' =>
      let* more := iterator_next h in
      if more : bool then
        fun i =>
          if negb (countAtIdx i =? 0) && (min =? 0)
          then Some (i_highestEquivalentValue i, i)
          else Min_loop fuel' h min i
      else ret min
  end.

Definition Min (h : Histogram) : option Z :=
  match Min_loop (walk_fuel h) h 0 new_iterator with
  | Some (min, _) => Some (lowestEquivalentValue h min)
  | None => None
  end.

(** ** Quantiles

    [float64] is the binary64 format of Rocq's primitive floats, with
    the same correctly rounded [+], [*] and [/].  The conversion
    [float64(n)] of an [int64] rounds to nearest, as [of_uint63] does;
    [int64(f)] truncates toward zero, and where the truncated value
    does not fit (or [f] is not a number) Go leaves the result to the
    implementation: the model takes the amd64 result, [-2^63]. *)

Module F64.

Definition of_int64 (z : Z) : float :=
  if z =? - 2 ^ 63 then PrimFloat.opp (PrimFloat.mul 2%float (PrimFloat.of_uint63 (Uint63.of_Z (2 ^ 62))))
  else if z <? 0 then PrimFloat.opp (PrimFloat.of_uint63 (Uint63.of_Z (- z)))
  else PrimFloat.of_uint63 (Uint63.of_Z z).

Definition trunc (f : float) : option Z :=
  match Prim2SF f with
  | S754_zero _ => Some 0
  | S754_finite s m e =>
      let a := if 0 <=? e then Z.shiftl (Z.pos m) e else Z.shiftr (Z.pos m) (- e) in
      Some (if s then - a else a)
  | _ => None
  end.

Definition to_int64 (f : float) : Z :=
  match trunc f with
  | Some z => if (- 2 ^ 63 <=? z) && (z <? 2 ^ 63) then z else - 2 ^ 63
  | None => - 2 ^ 63
  end.

End F64.

Definition countAtPercentile (q : float) (totalCount : Z) : Z :=
  let q := if PrimFloat.ltb 100%float q then 100%float else q in
  F64.to_int64
    (PrimFloat.add
       (PrimFloat.mul (PrimFloat.div q 100%float) (F64.of_int64 totalCount))
       0.5%float).

Fixpoint ValueAtQuantile_loop (fuel : nat) (h : Histogram)
    (countAtPercentile total : Z) : M iterator Z :=
  match fuel with
  | O => fun _ => None
  | S fuel' =>
      let* more := iterator_next h in
      if more : bool then
        fun i =>
          let total := wrap64 (total + countAtIdx i) in
          if countAtPercentile <=? total
          then Some (highestEquivalentValue h (valueFromIdx i), i)
          else ValueAtQuantile_loop fuel' h countAtPercentile total i
      else ret 0
  end.

Definition ValueAtQuantile (h : Histogram) (q : float) : option Z :=
  option_map fst
    (ValueAtQuantile_loop (walk_fuel h) h
       (countAtPercentile q (totalCount h)) 0 new_iterator).

(** ** The iterator over recorded values, and [Merge] *)

Record rIterator : Type := mkRIterator {
  r_iterator : iterator;
  countAddedThisStep : Z
}.

Definition new_rIterator : rIterator :=
  {| r_iterator := new_iterator; countAddedThisStep := 0 |}.

Fixpoint rIterator_next_loop (fuel : nat) (h : Histogram) : M rIterator bool :=
  match fuel with
  | O => fun _ => None
  | S fuel' => fun r =>
      match iterator_next h (r_iterator r) with
      | None => None
      | Some (true, i) =>
          if negb (countAtIdx i =? 0)
          then Some (true, {| r_iterator := i; countAddedThisStep := countAtIdx i |})
          else rIterator_next_loop fuel' h
                 {| r_iterator := i; countAddedThisStep := countAddedThisStep r |}
      | Some (false, i) =>
          Some (false, {| r_iterator := i; countAddedThisStep := countAddedThisStep r |})
      end
  end.

Definition rIterator_next (h : Histogram) : M rIterator bool :=
  rIterator_next_loop (walk_fuel h) h.

(** [Merge] works on two histograms that the caller names by pointer,
    and nothing keeps the two pointers apart: the store is a list of
    histograms, a pointer is a position in it, and the iterator reads
    [from] in the store as it is at each step. *)
Fixpoint Merge_loop (fuel : nat) (h from : nat) (i : rIterator) (dropped : Z)
  : M (list Histogram) Z :=
  match fuel with
  | O => fun _ => None
  | S fuel' => fun st =>
      match st !! from with
      | None => None
      | Some hfrom =>
          match rIterator_next hfrom i with
          | None => None
          | Some (false, _) => Some (dropped, st)
          | Some (true, i') =>
              let v := valueFromIdx (r_iterator i') in
              let c := countAtIdx (r_iterator i') in
              match st !! h with
              | None => None
              | Some hh =>
                  match RecordValues v c hh with
                  | None => None
                  | Some (err, hh') =>
                      Merge_loop fuel' h from i'
                        (if err is Some _ then wrap64 (dropped + c) else dropped)
                        (<[h := hh']> st)
                  end
              end
          end
      end
  end.

Definition Merge (h from : nat) : M (list Histogram) Z := fun st =>
  match st !! from with
  | None => None
  | Some hfrom => Merge_loop (walk_fuel hfrom) h from new_rIterator 0 st
  end.

(** ** The percentile iterator and [CumulativeDistribution]

    [math.Log] and [math.Pow] belong to Go's library, which does not
    promise correctly rounded results for them: they are parameters of
    the model.  Every other floating-point operation is the binary64
    one. *)

Record Bracket : Type := mkBracket {
  Quantile : float;
  Count : Z
}.

Record pIterator : Type := mkPIterator {
  p_iterator : iterator;
  seenLastValue : bool;
  ticksPerHalfDistance : Z;
  percentileToIteratorTo : float;
  percentile : float
}.

Definition new_pIterator (ticksPerHalfDistance : Z) : pIterator :=
  {| p_iterator := new_iterator; seenLastValue := false;
     ticksPerHalfDistance := ticksPerHalfDistance;
     percentileToIteratorTo := 0%float; percentile := 0%float |}.

Definition set_p_iterator (p : pIterator) (i : iterator) : pIterator :=
  {| p_iterator := i; seenLastValue := seenLastValue p;
     ticksPerHalfDistance := ticksPerHalfDistance p;
     percentileToIteratorTo := percentileToIteratorTo p;
     percentile := percentile p |}.

Section Percentiles.

Variable math_Log : float -> float.
Variable math_Pow : float -> float -> float.

Definition currentPercentile (h : Histogram) (p : pIterator) : float :=
  PrimFloat.div
    (PrimFloat.mul 100%float (F64.of_int64 (countToIdx (p_iterator p))))
    (F64.of_int64 (totalCount h)).

Definition reportPercentile (p : pIterator) : pIterator :=
  let t := percentileToIteratorTo p in
  let halfDistance :=
    math_Pow 2%float
      (PrimFloat.add
         (PrimFloat.div
            (math_Log (PrimFloat.div 100%float (PrimFloat.sub 100%float t)))
            (math_Log 2%float))
         1%float) in
  let percentileReportingTicks :=
    PrimFloat.mul (F64.of_int64 (ticksPerHalfDistance p)) halfDistance in
  {| p_iterator := p_iterator p; seenLastValue := seenLastValue p;
     ticksPerHalfDistance := ticksPerHalfDistance p;
     percentileToIteratorTo :=
       PrimFloat.add t (PrimFloat.div 100%float percentileReportingTicks);
     percentile := t |}.

Fixpoint pIterator_next_loop (fuel : nat) (h : Histogram) : M pIterator bool :=
  match fuel with
  | O => fun _ => None
  | S fuel' => fun p =>
      if negb (countAtIdx (p_iterator p) =? 0)
         && PrimFloat.leb (percentileToIteratorTo p) (currentPercentile h p)
      then Some (true, reportPercentile p)
      else
        match iterator_next h (p_iterator p) with
        | None => None
        | Some (true, i) => pIterator_next_loop fuel' h (set_p_iterator p i)
        | Some (false, i) => Some (true, set_p_iterator p i)
        end
  end.

Definition pIterator_next (h : Histogram) : M pIterator bool := fun p =>
  if negb (countToIdx (p_iterator p) <? totalCount h) then
    if seenLastValue p then Some (false, p)
    else Some (true,
               {| p_iterator := p_iterator p; seenLastValue := true;
                  ticksPerHalfDistance := ticksPerHalfDistance p;
                  percentileToIteratorTo := percentileToIteratorTo p;
                  percentile := 100%float |})
  else
    let first :=
      if subBucketIdx (p_iterator p) =? -1 then
        match iterator_next h (p_iterator p) with
        | None => None
        | Some (more, i) => Some (negb more, set_p_iterator p i)
        end
      else Some (false, p) in
    match first with
    | None => None
    | Some (true, p) => Some (false, p)
    | Some (false, p) => pIterator_next_loop (S (walk_fuel h)) h p
    end.

(** The number of brackets depends on the values that [math_Log] and
    [math_Pow] return, so the loop of [CumulativeDistribution] takes
    its fuel from the caller. *)
Fixpoint CumulativeDistribution_loop (fuel : nat) (h : Histogram)
    (result : list Bracket) : M pIterator (list Bracket) :=
  match fuel with
  | O => fun _ => None
  | S fuel' => fun p =>
      match pIterator_next h p with
      | None => None
      | Some (true, p) =>
          CumulativeDistribution_loop fuel' h
            (result ++ [ {| Quantile := percentile p;
                            Count := countToIdx (p_iterator p) |} ]) p
      | Some (false, p) => Some (result, p)
      end
  end.

Definition CumulativeDistribution (fuel : nat) (h : Histogram)
  : option (list Bracket) :=
  option_map fst (CumulativeDistribution_loop fuel h [] (new_pIterator 1)).

End Percentiles.

(** ** The remaining functions of the source *)

Definition ByteSize (h : Histogram) : Z :=
  6 * 8 + 5 * 4 + Z.of_nat (length (counts h)) * 8.

Definition medianEquivalentValue (h : Histogram) (v : Z) : Z :=
  wrap64 (lowestEquivalentValue h v
          + Z.shiftr (sizeOfEquivalentValueRange h v) 1).

(** The sum of [Mean] is an [int64]; the quotient is the binary64
    division. *)
Fixpoint Mean_loop (fuel : nat) (h : Histogram) (total : Z) : M iterator Z :=
  match fuel with
  | O => fun _ => None
  | S fuel' =>
      let* more := iterator_next h in
      if more : bool then
        fun i =>
          Mean_loop fuel' h
            (if countAtIdx i =? 0 then total
             else wrap64 (total
                          + wrap64 (countAtIdx i
                                    * medianEquivalentValue h (valueFromIdx i))))
            i
      else ret total
  end.

Definition Mean (h : Histogram) : option float :=
  match Mean_loop (walk_fuel h) h 0 new_iterator with
  | Some (total, _) =>
      Some (PrimFloat.div (F64.of_int64 total) (F64.of_int64 (totalCount h)))
  | None => None
  end.

(** Each operation of [StdDev] is rounded on its own, as on amd64;
    [math.Sqrt] is the correctly rounded square root. *)
Fixpoint StdDev_loop (fuel : nat) (h : Histogram) (mean geometricDevTotal : float)
  : M iterator float :=
  match fuel with
  | O => fun _ => None
  | S fuel' =>
      let* more := iterator_next h in
      if more : bool then
        fun i =>
          StdDev_loop fuel' h mean
            (if countAtIdx i =? 0 then geometricDevTotal
             else
               let dev :=
                 PrimFloat.sub
                   (F64.of_int64 (medianEquivalentValue h (valueFromIdx i)))
                   mean in
               PrimFloat.add geometricDevTotal
                 (PrimFloat.mul (PrimFloat.mul dev dev)
                    (F64.of_int64 (countAtIdx i))))
            i
      else ret geometricDevTotal
  end.

Definition StdDev (h : Histogram) : option float :=
  match Mean h with
  | None => None
  | Some mean =>
      match StdDev_loop (walk_fuel h) h mean 0%float new_iterator with
      | Some (geometricDevTotal, _) =>
          Some (PrimFloat.sqrt
                  (PrimFloat.div geometricDevTotal
                     (F64.of_int64 (totalCount h))))
      | None => None
      end
  end.

(** * Properties *)

(** The definitions above are unfolded by hand in the proofs. *)
Global Arguments wrap : simpl never.
Global Arguments wrap32 : simpl never.
Global Arguments wrap64 : simpl never.
Global Arguments shl64 : simpl never.
Global Arguments shl32 : simpl never.
Global Arguments shr64 : simpl never.
Global Arguments bitLen : simpl never.
Global Arguments power : simpl never.
Global Arguments getBucketIndex : simpl never.
Global Arguments getSubBucketIdx : simpl never.
Global Arguments countsIndex : simpl never.
Global Arguments countsIndexFor : simpl never.
Global Arguments valueFromIndex : simpl never.
Global Arguments sizeOfEquivalentValueRange : simpl never.
Global Arguments lowestEquivalentValue : simpl never.
Global Arguments nextNonEquivalentValue : simpl never.
Global Arguments highestEquivalentValue : simpl never.
Global Arguments getCountAtIndex : simpl never.
Global Arguments RecordValues : simpl never.
Global Arguments RecordValue : simpl never.
Global Arguments iterator_next : simpl never.
Global Arguments rIterator_next : simpl never.
Global Arguments walk_fuel : simpl never.
Global Arguments countAtPercentile : simpl never.
Global Arguments bucketsNeeded_loop : simpl never.
Global Arguments medianEquivalentValue : simpl never.
Global Arguments F64.of_int64 : simpl never.
Global Arguments F64.to_int64 : simpl never.
Global Arguments PrimFloat.div : simpl never.
Global Arguments PrimFloat.mul : simpl never.
Global Arguments PrimFloat.add : simpl never.
Global Arguments PrimFloat.sub : simpl never.
Global Arguments PrimFloat.sqrt : simpl never.

(** ** Wrap-around arithmetic *)

Lemma wrap_range (w z : Z) : 0 < w -> - 2 ^ (w - 1) <= wrap w z < 2 ^ (w - 1).
Proof.
  intros Hw. unfold wrap.
  assert (E : 2 ^ w = 2 * 2 ^ (w - 1)).
  { replace w with (Z.succ (w - 1)) at 1 by lia. rewrite Z.pow_succ_r; lia. }
  pose proof (Z.mod_pos_bound (z + 2 ^ (w - 1)) (2 ^ w)) as B.
  assert (0 < 2 ^ (w - 1)) by (apply Z.pow_pos_nonneg; lia). lia.
Qed.

Lemma wrap_id (w z : Z) :
  0 < w -> - 2 ^ (w - 1) <= z < 2 ^ (w - 1) -> wrap w z = z.
Proof.
  intros Hw Hz. unfold wrap.
  assert (E : 2 ^ w = 2 * 2 ^ (w - 1)).
  { replace w with (Z.succ (w - 1)) at 1 by lia. rewrite Z.pow_succ_r; lia. }
  rewrite Z.mod_small; lia.
Qed.

Lemma wrap_add_l (w a b : Z) : 0 < w -> wrap w (wrap w a + b) = wrap w (a + b).
Proof.
  intros Hw. unfold wrap. f_equal.
  assert (0 < 2 ^ w) by (apply Z.pow_pos_nonneg; lia).
  replace ((a + 2 ^ (w - 1)) mod 2 ^ w - 2 ^ (w - 1) + b + 2 ^ (w - 1))
    with ((a + 2 ^ (w - 1)) mod 2 ^ w + b) by lia.
  rewrite Zplus_mod_idemp_l. f_equal. lia.
Qed.

Lemma wrap_add_r (w a b : Z) : 0 < w -> wrap w (a + wrap w b) = wrap w (a + b).
Proof. intros. rewrite Z.add_comm, wrap_add_l, Z.add_comm; auto. Qed.

Lemma wrap64_id (z : Z) : in64 z -> wrap64 z = z.
Proof. intros H. apply wrap_id; [lia | exact H]. Qed.

Lemma wrap32_id (z : Z) : in32 z -> wrap32 z = z.
Proof. intros H. apply wrap_id; [lia | exact H]. Qed.

Lemma wrap64_in64 (z : Z) : in64 (wrap64 z).
Proof. apply (wrap_range 64). lia. Qed.

Lemma wrap32_in32 (z : Z) : in32 (wrap32 z).
Proof. apply (wrap_range 32). lia. Qed.

Lemma wrap64_add_l (a b : Z) : wrap64 (wrap64 a + b) = wrap64 (a + b).
Proof. apply wrap_add_l. lia. Qed.

Lemma wrap64_add_r (a b : Z) : wrap64 (a + wrap64 b) = wrap64 (a + b).
Proof. apply wrap_add_r. lia. Qed.

(** ** State of a histogram: what recording leaves alone *)

Definition same_geometry (h h' : Histogram) : Prop :=
  lowestTrackableValue h' = lowestTrackableValue h /\
  highestTrackableValue h' = highestTrackableValue h /\
  unitMagnitude h' = unitMagnitude h /\
  significantFigures h' = significantFigures h /\
  subBucketHalfCountMagnitude h' = subBucketHalfCountMagnitude h /\
  subBucketHalfCount h' = subBucketHalfCount h /\
  subBucketMask h' = subBucketMask h /\
  subBucketCount h' = subBucketCount h /\
  bucketCount h' = bucketCount h /\
  countsLen h' = countsLen h /\
  length (counts h') = length (counts h).

Lemma same_geometry_refl (h : Histogram) : same_geometry h h.
Proof. unfold same_geometry. tauto. Qed.

Lemma same_geometry_trans (h1 h2 h3 : Histogram) :
  same_geometry h1 h2 -> same_geometry h2 h3 -> same_geometry h1 h3.
Proof. unfold same_geometry. intuition congruence. Qed.

Lemma same_geometry_set_counts (h : Histogram) (t : Z) (cs : list Z) :
  length cs = length (counts h) -> same_geometry h (set_counts h t cs).
Proof. unfold same_geometry. simpl. tauto. Qed.

(** The outcome of [RecordValues], case by case. *)
Lemma RecordValues_cases (h : Histogram) (v n : Z) :
  let idx := countsIndexFor h v in
  (( idx < 0 \/ countsLen h <= idx) /\
   RecordValues v n h = Some (Some (ErrTooLarge v), h))
  \/ (0 <= idx < countsLen h /\ counts h !! Z.to_nat idx = None /\
      RecordValues v n h = None)
  \/ (exists c, 0 <= idx < countsLen h /\ counts h !! Z.to_nat idx = Some c /\
      RecordValues v n h =
        Some (None, set_counts h (wrap64 (totalCount h + n))
                      (<[Z.to_nat idx := wrap64 (c + n)]> (counts h)))).
Proof.
  intros idx. unfold RecordValues. fold idx.
  destruct (idx <? 0) eqn:E1; simpl.
  { left. split; [left; lia | reflexivity]. }
  destruct (countsLen h <=? idx) eqn:E2.
  { left. split; [right; lia | reflexivity]. }
  right. destruct (counts h !! Z.to_nat idx) as [c|] eqn:E3.
  - right. exists c. repeat split; try lia.
  - left. repeat split; lia.
Qed.

Lemma RecordValues_same_geometry (h h' : Histogram) (v n : Z) (e : option error) :
  RecordValues v n h = Some (e, h') -> same_geometry h h'.
Proof.
  intros H. destruct (RecordValues_cases h v n) as [[_ E]|[[_ [_ E]]|[c [_ [_ E]]]]];
    rewrite E in H; inversion H; subst.
  - apply same_geometry_refl.
  - apply same_geometry_set_counts. apply length_insert.
Qed.

(** A histogram to run the definitions on: [New 1 1000 1], which has
    7 buckets of 32 sub-buckets and 128 counters. *)
Definition empty_histogram : Histogram :=
  mkHistogram 0 0 0 0 0 0 0 0 0 0 0 [].

Definition sample_histogram : Histogram :=
  Eval vm_compute in default empty_histogram (New 1 1000 1).

(** ** C3: [RecordValues] rejects without a trace, or increments *)

(** C3.  Let [idx] be the counts index computed for [v] in a histogram
    whose slice has its declared length [countsLen].  If [idx] is
    outside [[0, countsLen)], [RecordValues v n] returns the error and
    the histogram it leaves is the one it found.  Otherwise it returns
    no error, the counter at [idx] has grown by [n], every other
    counter is as before, [totalCount] has grown by [n] (both in
    [int64] arithmetic), and the geometry is untouched. *)
Theorem RecordValues_rejects_or_increments (h : Histogram) (v n : Z) :
  length (counts h) = Z.to_nat (countsLen h) ->
  let idx := countsIndexFor h v in
  (idx < 0 \/ countsLen h <= idx ->
     RecordValues v n h = Some (Some (ErrTooLarge v), h))
  /\ (0 <= idx < countsLen h ->
      exists c h',
        counts h !! Z.to_nat idx = Some c
        /\ RecordValues v n h = Some (None, h')
        /\ counts h' !! Z.to_nat idx = Some (wrap64 (c + n))
        /\ (forall j : nat, j <> Z.to_nat idx -> counts h' !! j = counts h !! j)
        /\ totalCount h' = wrap64 (totalCount h + n)
        /\ same_geometry h h').
Proof.
  intros Hlen idx.
  destruct (RecordValues_cases h v n) as [[Hi E]|[[Hi [Hn E]]|[c [Hi [Hc E]]]]];
    fold idx in Hi.
  - split; [intros _; exact E | intros; lia].
  - exfalso. fold idx in Hn. apply lookup_ge_None in Hn. lia.
  - fold idx in Hc, E. split; [intros; lia | intros _].
    eexists c, _. split; [exact Hc|]. split; [exact E|]. simpl.
    assert (Hlt : (Z.to_nat idx < length (counts h))%nat)
      by (apply lookup_lt_is_Some; eauto).
    split; [apply list_lookup_insert_eq; exact Hlt|].
    split; [intros j Hj; apply list_lookup_insert_ne; congruence|].
    split; [reflexivity|].
    apply same_geometry_set_counts, length_insert.
Qed.

Lemma RecordValues_rejects_or_increments_witness :
  length (counts sample_histogram) = Z.to_nat (countsLen sample_histogram)
  /\ (exists h', RecordValues 5 3 sample_histogram = Some (None, h')
                 /\ counts h' !! 5%nat = Some 3 /\ totalCount h' = 3)
  /\ RecordValues 5000 3 sample_histogram
     = Some (Some (ErrTooLarge 5000), sample_histogram).
Proof.
  assert (L : length (counts sample_histogram)
              = Z.to_nat (countsLen sample_histogram)) by reflexivity.
  split; [exact L|]. split.
  - destruct (RecordValues_rejects_or_increments sample_histogram 5 3 L)
      as [_ H].
    destruct H as (c & h' & Hc & E & Hi & _ & Ht & _);
      [vm_compute; split; [discriminate | reflexivity]|].
    exists h'. split; [exact E|].
    vm_compute in Hc. inversion Hc; subst c. split; [exact Hi | exact Ht].
  - apply (RecordValues_rejects_or_increments sample_histogram 5000 3 L).
    right. vm_compute. discriminate.
Defined.

(** ** C7: [RecordCorrectedValue] against its description *)

(** The values that the description of [RecordCorrectedValue] names:
    [v - expectedInterval], [v - 2*expectedInterval], and so on, down
    to but not below [expectedInterval]. *)
Definition backfill_values (v expectedInterval : Z) : list Z :=
  (fun k => v - k * expectedInterval) <$> seqZ 1 (v / expectedInterval - 1).

(** One occurrence of each value in turn, stopping at the first failure
    with the earlier recordings kept. *)
Fixpoint record_each (vs : list Z) : M Histogram (option error) :=
  match vs with
  | [] => ret None
  | x :: rest =>
      let* err := RecordValue x in
      match err with
      | Some e => ret (Some e)
      | None => record_each rest
      end
  end.

Definition RecordCorrectedValue_described (v expectedInterval : Z)
  : M Histogram (option error) :=
  let* err := RecordValue v in
  match err with
  | Some e => ret (Some e)
  | None =>
      if (0 <? expectedInterval) && (expectedInterval <? v)
      then record_each (backfill_values v expectedInterval)
      else ret None
  end.

Lemma backfill_values_elem (v ei x : Z) :
  0 < ei ->
  x ∈ backfill_values v ei <-> exists k, 1 <= k /\ x = v - k * ei /\ ei <= x.
Proof.
  intros Hei. unfold backfill_values. rewrite list_elem_of_fmap.
  pose proof (Z.mul_div_le v ei Hei) as D1.
  pose proof (Z.mul_succ_div_gt v ei Hei) as D2.
  split.
  - intros (k & -> & Hk). apply elem_of_seqZ in Hk.
    exists k. split; [lia|]. split; [reflexivity|]. nia.
  - intros (k & Hk & -> & Hx). exists k. split; [reflexivity|].
    apply elem_of_seqZ. split; [lia|].
    assert (k + 1 <= v / ei) by (apply Z.div_le_lower_bound; lia). lia.
Qed.

Lemma RecordCorrectedValue_loop_described (v ei : Z) :
  0 < ei -> in64 ei -> in64 v ->
  forall (n : nat) (k : Z) (fuel : nat) (h : Histogram),
    1 <= k -> v / ei = k + Z.of_nat n -> (n < fuel)%nat ->
    RecordCorrectedValue_loop fuel ei (v - k * ei) h
    = record_each ((fun j => v - j * ei) <$> seqZ k (Z.of_nat n)) h.
Proof.
  intros Hei Iei Iv.
  pose proof (Z.mul_div_le v ei Hei) as D1.
  pose proof (Z.mul_succ_div_gt v ei Hei) as D2.
  induction n as [|n IH]; intros k fuel h Hk Hdiv Hfuel.
  - destruct fuel as [|fuel]; [lia|].
    rewrite seqZ_nil by lia. simpl.
    destruct (ei <=? v - k * ei) eqn:E; [|reflexivity].
    apply Z.leb_le in E. nia.
  - destruct fuel as [|fuel]; [lia|].
    rewrite seqZ_cons by lia. simpl.
    assert (ei <= v - k * ei) by nia.
    destruct (ei <=? v - k * ei) eqn:E; [|apply Z.leb_gt in E; lia].
    unfold bind. destruct (RecordValue (v - k * ei) h) as [[[e|] h']|];
      try reflexivity.
    assert (W : wrap64 (v - k * ei - ei) = v - Z.succ k * ei).
    { unfold in64 in *. rewrite wrap64_id; [lia|]. unfold in64. nia. }
    rewrite W. replace (Z.pred (Z.of_nat (S n))) with (Z.of_nat n) by lia.
    apply IH; lia.
Qed.

(** C7.  [RecordCorrectedValue v expectedInterval] first records [v],
    and returns its failure if there is one; then, exactly when
    [0 < expectedInterval < v], it records one occurrence each of
    [v - expectedInterval], [v - 2*expectedInterval], ... (the values
    [v - k*expectedInterval] with [k >= 1] that are not below
    [expectedInterval]), in this order, stops at the first failure and
    returns it, and the histogram it leaves holds every recording that
    succeeded before. *)
Theorem RecordCorrectedValue_as_described (v expectedInterval : Z) (h : Histogram) :
  in64 v -> in64 expectedInterval ->
  RecordCorrectedValue v expectedInterval h
  = RecordCorrectedValue_described v expectedInterval h
  /\ (0 < expectedInterval ->
      forall x, x ∈ backfill_values v expectedInterval <->
                exists k, 1 <= k /\ x = v - k * expectedInterval
                          /\ expectedInterval <= x).
Proof.
  intros Iv Iei. split; [|intros; apply backfill_values_elem; assumption].
  unfold RecordCorrectedValue, RecordCorrectedValue_described, bind.
  destruct (RecordValue v h) as [[[e|] h']|]; try reflexivity.
  destruct (expectedInterval <=? 0) eqn:E1; simpl.
  { replace (0 <? expectedInterval) with false by (symmetry; apply Z.ltb_ge; lia).
    reflexivity. }
  apply Z.leb_gt in E1.
  replace (0 <? expectedInterval) with true by (symmetry; apply Z.ltb_lt; lia).
  simpl. destruct (v <=? expectedInterval) eqn:E2.
  { replace (expectedInterval <? v) with false by (symmetry; apply Z.ltb_ge; lia).
    reflexivity. }
  apply Z.leb_gt in E2.
  replace (expectedInterval <? v) with true by (symmetry; apply Z.ltb_lt; lia).
  assert (1 <= v / expectedInterval) by (apply Z.div_le_lower_bound; lia).
  rewrite wrap64_id by (unfold in64 in *; lia).
  replace (v - expectedInterval) with (v - 1 * expectedInterval) by lia.
  unfold backfill_values.
  replace (v / expectedInterval - 1)
    with (Z.of_nat (Z.to_nat (v / expectedInterval - 1))) by lia.
  apply RecordCorrectedValue_loop_described; try assumption; lia.
Qed.

Lemma RecordCorrectedValue_as_described_witness :
  in64 100 /\ in64 30
  /\ option_map (fun r => totalCount (snd r))
       (RecordCorrectedValue 100 30 sample_histogram) = Some 3
  /\ backfill_values 100 30 = [70; 40].
Proof.
  assert (I1 : in64 100) by (unfold in64; lia).
  assert (I2 : in64 30) by (unfold in64; lia).
  split; [exact I1|]. split; [exact I2|].
  destruct (RecordCorrectedValue_as_described 100 30 sample_histogram I1 I2)
    as [E _].
  split; [rewrite E; reflexivity | reflexivity].
Defined.

(** ** C2: [totalCount] is the sum of the counters *)

(** The sum of the counters, accumulated in an [int64] as Go would. *)
Definition sum64 (cs : list Z) : Z := foldl (fun a c => wrap64 (a + c)) 0 cs.

Definition sumZ (cs : list Z) : Z := foldr Z.add 0 cs.

Definition count_invariant (h : Histogram) : Prop :=
  totalCount h = sum64 (counts h).

Lemma foldl_wrap64 (cs : list Z) (a : Z) :
  foldl (fun a c => wrap64 (a + c)) (wrap64 a) cs = wrap64 (a + sumZ cs).
Proof.
  revert a. induction cs as [|c cs IH]; intros a; simpl.
  - f_equal. lia.
  - rewrite wrap64_add_l, IH. f_equal. lia.
Qed.

Lemma sum64_sumZ (cs : list Z) : sum64 cs = wrap64 (sumZ cs).
Proof.
  unfold sum64. change 0 with (wrap64 0) at 1. rewrite foldl_wrap64. reflexivity.
Qed.

Lemma sumZ_replicate_0 (n : nat) : sumZ (replicate n 0) = 0.
Proof. induction n; simpl; lia. Qed.

Lemma sumZ_insert (cs : list Z) (i : nat) (x y : Z) :
  cs !! i = Some x -> sumZ (<[i := y]> cs) = sumZ cs - x + y.
Proof.
  revert i. induction cs as [|c cs IH]; intros [|i] H; simpl in *; try discriminate.
  - inversion H. lia.
  - rewrite (IH i H). lia.
Qed.

Lemma New_count_invariant (lo hi s : Z) (h : Histogram) :
  New lo hi s = Some h -> count_invariant h.
Proof.
  unfold New. intros H.
  destruct ((s <? 1) || (5 <? s)); [discriminate|].
  destruct (bucketsNeeded_loop _ _ _ _); [|discriminate].
  destruct (_ <? 0); [discriminate|]. inversion H. subst h.
  unfold count_invariant. simpl. rewrite sum64_sumZ, sumZ_replicate_0. reflexivity.
Qed.

Lemma Reset_count_invariant (h : Histogram) : count_invariant (Reset h).
Proof.
  unfold count_invariant, Reset. simpl.
  rewrite sum64_sumZ, sumZ_replicate_0. reflexivity.
Qed.

Lemma RecordValues_count_invariant (h h' : Histogram) (v n : Z) (e : option error) :
  RecordValues v n h = Some (e, h') -> count_invariant h -> count_invariant h'.
Proof.
  intros H I.
  destruct (RecordValues_cases h v n) as [[_ E]|[[_ [_ E]]|[c [_ [Hc E]]]]];
    rewrite E in H; inversion H; subst; [exact I|].
  unfold count_invariant in *. simpl. rewrite I, !sum64_sumZ.
  rewrite (sumZ_insert _ _ c) by exact Hc.
  rewrite wrap64_add_l.
  replace (sumZ (counts h) - c + wrap64 (c + n))
    with ((sumZ (counts h) - c) + wrap64 (c + n)) by lia.
  rewrite wrap64_add_r. f_equal. lia.
Qed.

(** A property of histograms that [RecordValues] keeps is kept by the
    operations built on it. *)
Section Preservation.

Variable P : Histogram -> Prop.
Hypothesis P_RecordValues :
  forall h h' v n e, in64 v -> RecordValues v n h = Some (e, h') -> P h -> P h'.

Lemma RecordCorrectedValue_loop_preserves (fuel : nat) (ei : Z) :
  forall (mv : Z) (h h' : Histogram) (e : option error),
    in64 mv ->
    RecordCorrectedValue_loop fuel ei mv h = Some (e, h') -> P h -> P h'.
Proof.
  induction fuel as [|fuel IH]; intros mv h h' e Imv H I; simpl in H;
    [discriminate|].
  destruct (ei <=? mv).
  - unfold bind in H. destruct (RecordValue mv h) as [[[e1|] h1]|] eqn:E;
      try discriminate.
    + inversion H; subst. eapply P_RecordValues; eauto.
    + eapply IH; [apply wrap64_in64|exact H|]. eapply P_RecordValues; eauto.
  - inversion H; subst. exact I.
Qed.

Lemma RecordCorrectedValue_preserves (v ei : Z) (h h' : Histogram)
    (e : option error) :
  in64 v -> RecordCorrectedValue v ei h = Some (e, h') -> P h -> P h'.
Proof.
  unfold RecordCorrectedValue, bind. intros Iv H I.
  destruct (RecordValue v h) as [[[e1|] h1]|] eqn:E; try discriminate.
  - inversion H; subst. eapply P_RecordValues; eauto.
  - assert (I1 : P h1) by (eapply P_RecordValues; eauto).
    destruct ((ei <=? 0) || (v <=? ei)).
    + inversion H; subst. exact I1.
    + eapply RecordCorrectedValue_loop_preserves; [apply wrap64_in64|eauto..].
Qed.

(** A property of every histogram of a store. *)
Definition store_all (st : list Histogram) : Prop :=
  forall (p : nat) (h : Histogram), st !! p = Some h -> P h.

Lemma store_all_insert (st : list Histogram) (p : nat) (h : Histogram) :
  store_all st -> P h -> store_all (<[p := h]> st).
Proof.
  intros A Ph q hq Hq. destruct (decide (p = q)) as [->|Hne].
  - destruct (decide (q < length st)%nat) as [Hlt|Hge].
    + rewrite list_lookup_insert_eq in Hq by exact Hlt. inversion Hq; subst. exact Ph.
    + rewrite list_insert_ge in Hq by lia. eapply A; eauto.
  - rewrite list_lookup_insert_ne in Hq by exact Hne. eapply A; eauto.
Qed.

Lemma store_all_app (st : list Histogram) (h : Histogram) :
  store_all st -> P h -> store_all (st ++ [h]).
Proof.
  intros A Ph q hq Hq. apply lookup_app_Some in Hq as [Hq|[_ Hq]].
  - eapply A; eauto.
  - destruct (q - length st)%nat; simpl in Hq; [|discriminate].
    inversion Hq; subst. exact Ph.
Qed.

Lemma valueFromIndex_in64 (h : Histogram) (b sb : Z) : in64 (valueFromIndex h b sb).
Proof.
  unfold valueFromIndex, shl64. destruct (_ && _); [apply wrap64_in64|].
  unfold in64. lia.
Qed.

Lemma iterator_next_valueFromIdx_in64 (h : Histogram) (i i' : iterator) :
  iterator_next h i = Some (true, i') -> in64 (valueFromIdx i').
Proof.
  unfold iterator_next. intros H.
  destruct (totalCount h <=? countToIdx i); [discriminate|].
  destruct (subBucketCount h <=? wrap32 (subBucketIdx i + 1));
    (destruct (bucketCount h <=? _); [discriminate|]);
    (destruct (getCountAtIndex h _ _); [|discriminate]);
    inversion H; subst; simpl; apply valueFromIndex_in64.
Qed.

Lemma rIterator_next_loop_valueFromIdx_in64 (fuel : nat) (h : Histogram) :
  forall (r r' : rIterator),
    rIterator_next_loop fuel h r = Some (true, r') ->
    in64 (valueFromIdx (r_iterator r')).
Proof.
  induction fuel as [|fuel IH]; intros r r' H; simpl in H; [discriminate|].
  destruct (iterator_next h (r_iterator r)) as [[[|] i]|] eqn:E; try discriminate.
  destruct (negb (countAtIdx i =? 0)).
  - inversion H; subst. simpl. eapply iterator_next_valueFromIdx_in64; eauto.
  - eapply IH; eauto.
Qed.

Lemma Merge_loop_store_all :
  forall (fuel : nat) (a b : nat) (i : rIterator) (d d' : Z)
         (st st' : list Histogram),
    Merge_loop fuel a b i d st = Some (d', st') ->
    store_all st -> store_all st'.
Proof.
  induction fuel as [|fuel IH]; intros a b i d d' st st' H A;
    simpl in H; [discriminate|].
  destruct (st !! b) as [hb|] eqn:Eb; [|discriminate].
  destruct (rIterator_next hb i) as [[[|] i']|] eqn:En; try discriminate.
  - destruct (st !! a) as [ha|] eqn:Ea; [|discriminate].
    destruct (RecordValues _ _ ha) as [[e ha']|] eqn:Er; [|discriminate].
    eapply IH; [exact H|]. apply store_all_insert; [exact A|].
    eapply P_RecordValues; [|exact Er|eapply A; eauto].
    eapply rIterator_next_loop_valueFromIdx_in64; exact En.
  - inversion H; subst. exact A.
Qed.

Lemma Merge_store_all (a b : nat) (d : Z) (st st' : list Histogram) :
  Merge a b st = Some (d, st') -> store_all st -> store_all st'.
Proof.
  intros H A. unfold Merge in H.
  destruct (st !! b); [|discriminate].
  eapply Merge_loop_store_all; eauto.
Qed.

End Preservation.

(** The operations that change a store of histograms.  A call that
    returns an error is a step too (it may have recorded something
    before it failed); [RecordValue v] is [RecordValues v 1].  The
    arguments are [int64] values. *)
Inductive step : list Histogram -> list Histogram -> Prop :=
| step_New (st : list Histogram) (lo hi s : Z) (h : Histogram) :
    in64 lo -> in64 hi ->
    New lo hi s = Some h -> step st (st ++ [h])
| step_RecordValues (st : list Histogram) (p : nat) (v n : Z)
    (h h' : Histogram) (e : option error) :
    in64 v -> in64 n ->
    st !! p = Some h -> RecordValues v n h = Some (e, h') ->
    step st (<[p := h']> st)
| step_RecordCorrectedValue (st : list Histogram) (p : nat) (v ei : Z)
    (h h' : Histogram) (e : option error) :
    in64 v -> in64 ei ->
    st !! p = Some h -> RecordCorrectedValue v ei h = Some (e, h') ->
    step st (<[p := h']> st)
| step_Reset (st : list Histogram) (p : nat) (h : Histogram) :
    st !! p = Some h -> step st (<[p := Reset h]> st)
| step_Merge (st st' : list Histogram) (a b : nat) (d : Z) :
    Merge a b st = Some (d, st') -> step st st'.

Inductive reachable : list Histogram -> Prop :=
| reachable_nil : reachable []
| reachable_step (st st' : list Histogram) :
    reachable st -> step st st' -> reachable st'.

(** The induction principle of the reachable stores, for a property of
    single histograms. *)
Lemma reachable_store_all (P : Histogram -> Prop) :
  (forall lo hi s h, in64 lo -> in64 hi -> New lo hi s = Some h -> P h) ->
  (forall h h' v n e, in64 v -> RecordValues v n h = Some (e, h') -> P h -> P h') ->
  (forall h, P h -> P (Reset h)) ->
  forall st, reachable st -> store_all P st.
Proof.
  intros HN HR HZ st R. induction R as [|st st' R IH S].
  - intros p h Hp. rewrite lookup_nil in Hp. discriminate.
  - destruct S as [st lo hi s h Ilo Ihi Hn | st p v n h h' e Iv In Hp Hr
                   | st p v ei h h' e Iv Iei Hp Hr | st p h Hp | st st' a b d Hm].
    + apply store_all_app; [exact IH|]. exact (HN lo hi s h Ilo Ihi Hn).
    + apply store_all_insert; [exact IH|].
      exact (HR h h' v n e Iv Hr (IH p h Hp)).
    + apply store_all_insert; [exact IH|].
      exact (RecordCorrectedValue_preserves P HR v ei h h' e Iv Hr (IH p h Hp)).
    + apply store_all_insert; [exact IH|]. exact (HZ h (IH p h Hp)).
    + exact (Merge_store_all P HR a b d st st' Hm IH).
Qed.

(** C2.  In every store of histograms that the operations [New],
    [RecordValue], [RecordValues], [RecordCorrectedValue], [Merge] and
    [Reset] can produce, every histogram has [totalCount] equal to the
    sum of its counters (the sum taken in [int64], as [totalCount]
    is): the equality holds after [New] and every operation keeps
    it. *)
Theorem totalCount_is_sum_of_counts (st : list Histogram) :
  reachable st -> store_all count_invariant st.
Proof.
  apply reachable_store_all.
  - intros lo hi s h _ _. apply New_count_invariant.
  - intros h h' v n e _. apply RecordValues_count_invariant.
  - intros h _. apply Reset_count_invariant.
Qed.

(** Two recordings into [sample_histogram], and a store that holds the
    result next to a histogram of another geometry. *)
Definition sample_recorded_once : Histogram :=
  Eval vm_compute in
    default empty_histogram (snd <$> RecordValues 5 1 sample_histogram).

Definition sample_recorded : Histogram :=
  Eval vm_compute in
    default empty_histogram (snd <$> RecordValues 900 2 sample_recorded_once).

Definition sample_other_fresh : Histogram :=
  Eval vm_compute in default empty_histogram (New 1 100 2).

Definition sample_other_once : Histogram :=
  Eval vm_compute in
    default empty_histogram (snd <$> RecordValues 5 1 sample_other_fresh).

Definition sample_other : Histogram :=
  Eval vm_compute in
    default empty_histogram (snd <$> RecordValues 77 3 sample_other_once).

Lemma reachable_sample_store : reachable [sample_recorded; sample_other].
Proof.
  assert (I : forall z, - 1000 <= z <= 1000 -> in64 z) by (unfold in64; lia).
  assert (R1 : reachable [sample_histogram]).
  { apply (reachable_step [] _ reachable_nil).
    exact (step_New [] 1 1000 1 sample_histogram
             (I 1 ltac:(lia)) (I 1000 ltac:(lia)) eq_refl). }
  assert (R2 : reachable [sample_recorded_once]).
  { apply (reachable_step _ _ R1).
    exact (step_RecordValues [sample_histogram] 0 5 1 sample_histogram
             sample_recorded_once None (I 5 ltac:(lia)) (I 1 ltac:(lia))
             eq_refl ltac:(vm_compute; reflexivity)). }
  assert (R3 : reachable [sample_recorded]).
  { apply (reachable_step _ _ R2).
    exact (step_RecordValues [sample_recorded_once] 0 900 2 sample_recorded_once
             sample_recorded None (I 900 ltac:(lia)) (I 2 ltac:(lia))
             eq_refl ltac:(vm_compute; reflexivity)). }
  assert (R4 : reachable [sample_recorded; sample_other_fresh]).
  { apply (reachable_step _ _ R3).
    exact (step_New [sample_recorded] 1 100 2 sample_other_fresh
             (I 1 ltac:(lia)) (I 100 ltac:(lia)) ltac:(vm_compute; reflexivity)). }
  assert (R5 : reachable [sample_recorded; sample_other_once]).
  { apply (reachable_step _ _ R4).
    exact (step_RecordValues [sample_recorded; sample_other_fresh] 1 5 1
             sample_other_fresh sample_other_once None
             (I 5 ltac:(lia)) (I 1 ltac:(lia))
             eq_refl ltac:(vm_compute; reflexivity)). }
  apply (reachable_step _ _ R5).
  exact (step_RecordValues [sample_recorded; sample_other_once] 1 77 3
           sample_other_once sample_other None
           (I 77 ltac:(lia)) (I 3 ltac:(lia))
           eq_refl ltac:(vm_compute; reflexivity)).
Defined.

Lemma totalCount_is_sum_of_counts_witness :
  reachable [sample_recorded; sample_other]
  /\ store_all count_invariant [sample_recorded; sample_other].
Proof.
  split; [exact reachable_sample_store|].
  exact (totalCount_is_sum_of_counts _ reachable_sample_store).
Defined.

(** ** C10: what [Merge] does to the histogram it reads *)

Lemma Merge_loop_frame (fuel : nat) :
  forall (a b : nat) (i : rIterator) (d d' : Z) (st st' : list Histogram) (q : nat),
    q <> a ->
    Merge_loop fuel a b i d st = Some (d', st') ->
    st' !! q = st !! q.
Proof.
  induction fuel as [|fuel IH]; intros a b i d d' st st' q Hq H;
    simpl in H; [discriminate|].
  destruct (st !! b) as [hb|]; [|discriminate].
  destruct (rIterator_next hb i) as [[[|] i']|]; try discriminate.
  - destruct (st !! a) as [ha|]; [|discriminate].
    destruct (RecordValues _ _ ha) as [[e ha']|]; [|discriminate].
    rewrite (IH _ _ _ _ _ _ _ q Hq H).
    apply list_lookup_insert_ne. congruence.
  - inversion H; subst. reflexivity.
Qed.

(** C10, amended.  When [a] and [b] are two different histograms,
    [a.Merge(b)] leaves [b] as it was: its counters, its [totalCount]
    and its geometry are those it had before the call (and so is every
    histogram of the store other than [a]). *)
Theorem Merge_leaves_source_unchanged (a b : nat) (d : Z)
    (st st' : list Histogram) :
  a <> b ->
  Merge a b st = Some (d, st') ->
  st' !! b = st !! b.
Proof.
  intros Hne H. unfold Merge in H.
  destruct (st !! b) as [hb|] eqn:Eb; [|discriminate].
  rewrite (Merge_loop_frame _ _ _ _ _ _ _ _ b (not_eq_sym Hne) H). exact Eb.
Qed.

Lemma Merge_leaves_source_unchanged_witness :
  0%nat <> 1%nat
  /\ (exists st', Merge 0 1 [sample_recorded; sample_other] = Some (0, st')
                  /\ st' !! 1%nat = Some sample_other).
Proof.
  assert (N : 0%nat <> 1%nat) by discriminate.
  split; [exact N|].
  destruct (Merge 0 1 [sample_recorded; sample_other]) as [[d st']|] eqn:E;
    [|vm_compute in E; discriminate].
  assert (d = 0) by (vm_compute in E; congruence). subst d.
  exists st'. split; [reflexivity|].
  exact (Merge_leaves_source_unchanged 0 1 0 _ st' N E).
Defined.

(** C10 as stated fails when the two histograms are one and the same:
    [a.Merge(a)] reads [a] and records into it, and every counter of
    [a] ends up doubled. *)
Lemma Merge_into_itself_modifies_source :
  exists st',
    Merge 0 0 [sample_recorded] = Some (0, st')
    /\ totalCount <$> st' !! 0%nat = Some 6
    /\ totalCount <$> [sample_recorded] !! 0%nat = Some 3
    /\ st' !! 0%nat <> [sample_recorded] !! 0%nat.
Proof.
  eexists. split; [vm_compute; reflexivity|].
  split; [reflexivity|]. split; [reflexivity|].
  vm_compute. discriminate.
Qed.

(** ** The geometry that [New] builds *)

Record geometry (h : Histogram) : Prop := mkGeometry {
  geo_hm : 0 <= subBucketHalfCountMagnitude h <= 17;
  geo_um : 0 <= unitMagnitude h <= 62;
  geo_count : subBucketCount h = 2 ^ (subBucketHalfCountMagnitude h + 1);
  geo_half : subBucketHalfCount h = 2 ^ subBucketHalfCountMagnitude h;
  geo_mask :
    subBucketMask h
    = shl64 (2 ^ (subBucketHalfCountMagnitude h + 1) - 1) (unitMagnitude h);
  geo_buckets : 1 <= bucketCount h <= 65;
  geo_len :
    countsLen h = (bucketCount h + 1) * 2 ^ subBucketHalfCountMagnitude h;
  geo_counts : length (counts h) = Z.to_nat (countsLen h)
}.

Lemma bucketsNeeded_loop_S (fuel : nat) (hi t n : Z) :
  bucketsNeeded_loop (S fuel) hi t n
  = if t <? hi then bucketsNeeded_loop fuel hi (shl64 t 1) (wrap32 (n + 1))
    else Some n.
Proof. reflexivity. Qed.

Lemma bucketsNeeded_loop_bound (fuel : nat) :
  forall (hi t n bc : Z),
    1 <= n -> n + Z.of_nat fuel <= 100 ->
    bucketsNeeded_loop fuel hi t n = Some bc ->
    n <= bc < n + Z.of_nat fuel.
Proof.
  induction fuel as [|fuel IH]; intros hi t n bc Hn Hf H.
  - discriminate.
  - rewrite bucketsNeeded_loop_S in H. destruct (t <? hi).
    + rewrite wrap32_id in H by (unfold in32; lia).
      apply IH in H; lia.
    + inversion H. lia.
Qed.

(** The half-count magnitude for each admitted number of significant
    figures: [ceil(log2(2 * 10^s)) - 1]. *)
Definition magnitude_of (s : Z) : Z :=
  match s with 1 => 4 | 2 => 7 | 3 => 10 | 4 => 14 | _ => 17 end.

Lemma New_magnitude (s : Z) :
  1 <= s <= 5 ->
  let m := wrap32 (Z.log2_up (wrap64 (2 * power 10 s))) in
  wrap32 ((if m <? 1 then 1 else m) - 1) = magnitude_of s
  /\ wrap32 (2 ^ (magnitude_of s + 1)) = 2 ^ (magnitude_of s + 1)
  /\ Z.quot (2 ^ (magnitude_of s + 1)) 2 = 2 ^ magnitude_of s
  /\ wrap32 (2 ^ (magnitude_of s + 1) - 1) = 2 ^ (magnitude_of s + 1) - 1
  /\ 0 <= magnitude_of s <= 17.
Proof.
  intros Hs.
  assert (Cs : s = 1 \/ s = 2 \/ s = 3 \/ s = 4 \/ s = 5) by lia.
  destruct Cs as [->|[->|[->|[->| ->]]]]; vm_compute; repeat split; congruence.
Qed.

Lemma New_inversion (lo hi s : Z) (h : Histogram) :
  in64 lo ->
  New lo hi s = Some h ->
  exists bc,
    1 <= s <= 5
    /\ bucketsNeeded_loop 65 hi (2 ^ (magnitude_of s + 1) - 1) 1 = Some bc
    /\ h = {| lowestTrackableValue := lo;
              highestTrackableValue := hi;
              unitMagnitude := Z.log2 lo;
              significantFigures := s;
              subBucketHalfCountMagnitude := magnitude_of s;
              subBucketHalfCount := 2 ^ magnitude_of s;
              subBucketMask := shl64 (2 ^ (magnitude_of s + 1) - 1) (Z.log2 lo);
              subBucketCount := 2 ^ (magnitude_of s + 1);
              bucketCount := bc;
              countsLen := (bc + 1) * 2 ^ magnitude_of s;
              totalCount := 0;
              counts := replicate (Z.to_nat ((bc + 1) * 2 ^ magnitude_of s)) 0 |}.
Proof.
  intros Ilo H. unfold New in H.
  destruct ((s <? 1) || (5 <? s)) eqn:Es; [discriminate|].
  apply orb_false_iff in Es as [E1 E2].
  apply Z.ltb_ge in E1. apply Z.ltb_ge in E2.
  assert (Hum : wrap32 (Z.log2 lo) = Z.log2 lo).
  { apply wrap32_id. unfold in32. pose proof (Z.log2_nonneg lo).
    destruct (Z.le_gt_cases lo 0) as [L|L].
    - rewrite Z.log2_nonpos by lia. lia.
    - assert (Z.log2 lo < 63) by (apply Z.log2_lt_pow2; unfold in64 in Ilo; lia).
      lia. }
  destruct (New_magnitude s ltac:(lia)) as (M1 & M2 & M3 & M4 & M5).
  cbv zeta in H, M1. rewrite M1, Hum in H.
  replace (Z.log2 lo <? 0) with false in H
    by (symmetry; apply Z.ltb_ge, Z.log2_nonneg).
  rewrite M2, M3, M4 in H.
  destruct (bucketsNeeded_loop 65 hi (2 ^ (magnitude_of s + 1) - 1) 1)
    as [bc|] eqn:Eb; [|discriminate].
  pose proof (bucketsNeeded_loop_bound 65 hi _ 1 bc ltac:(lia) ltac:(lia) Eb) as Hb.
  assert (P : 0 < 2 ^ magnitude_of s <= 2 ^ 17).
  { split; [apply Z.pow_pos_nonneg; lia | apply Z.pow_le_mono_r; lia]. }
  rewrite (wrap32_id (bc + 1)) in H by (unfold in32; lia).
  rewrite (wrap32_id ((bc + 1) * _)) in H by (unfold in32; nia).
  replace ((bc + 1) * 2 ^ magnitude_of s <? 0) with false in H
    by (symmetry; apply Z.ltb_ge; nia).
  exists bc. split; [lia|]. split; [reflexivity|]. inversion H. reflexivity.
Qed.

Lemma New_geometry (lo hi s : Z) (h : Histogram) :
  in64 lo -> New lo hi s = Some h -> geometry h.
Proof.
  intros Ilo H.
  destruct (New_inversion lo hi s h Ilo H) as (bc & Hs & Hb & ->).
  pose proof (bucketsNeeded_loop_bound 65 hi _ 1 bc ltac:(lia) ltac:(lia) Hb) as Bb.
  destruct (New_magnitude s Hs) as (_ & _ & _ & _ & Bhm).
  assert (Bum : 0 <= Z.log2 lo <= 62).
  { pose proof (Z.log2_nonneg lo). destruct (Z.le_gt_cases lo 0) as [L|L].
    - rewrite Z.log2_nonpos by lia. lia.
    - assert (Z.log2 lo < 63) by (apply Z.log2_lt_pow2; unfold in64 in Ilo; lia).
      lia. }
  constructor; simpl; try lia; try reflexivity.
  rewrite length_replicate. reflexivity.
Qed.

Lemma same_geometry_geometry (h h' : Histogram) :
  same_geometry h h' -> geometry h -> geometry h'.
Proof.
  intros (E1 & E2 & E3 & E4 & E5 & E6 & E7 & E8 & E9 & E10 & E11) [].
  constructor; congruence.
Qed.

Lemma Reset_geometry (h : Histogram) : geometry h -> geometry (Reset h).
Proof.
  intros []. constructor; simpl; try assumption.
  rewrite length_replicate. assumption.
Qed.

Lemma reachable_geometry (st : list Histogram) :
  reachable st -> store_all geometry st.
Proof.
  apply reachable_store_all.
  - intros lo hi s h Ilo _. apply New_geometry. exact Ilo.
  - intros h h' v n e _ H. apply same_geometry_geometry.
    eapply RecordValues_same_geometry; eauto.
  - apply Reset_geometry.
Qed.

(** ** Slots: the counters in their order in the slice *)

Definition slot_bucket (h : Histogram) (j : Z) : Z :=
  if j <? subBucketCount h then 0 else j / subBucketHalfCount h - 1.

Definition slot_sub (h : Histogram) (j : Z) : Z :=
  if j <? subBucketCount h then j
  else j mod subBucketHalfCount h + subBucketHalfCount h.

(** The representative value of the slot at index [j]: what the
    iterator reports as [valueFromIdx] there. *)
Definition slot_value (h : Histogram) (j : Z) : Z :=
  valueFromIndex h (slot_bucket h j) (slot_sub h j).

(** The iterator stands on the slot of index [j] ([-1] before the first
    call of [next]). *)
Definition at_slot (h : Histogram) (i : iterator) (j : Z) : Prop :=
  0 <= bucketIdx i
  /\ bucketIdx i * subBucketHalfCount h + subBucketIdx i = j
  /\ subBucketIdx i < subBucketCount h
  /\ (if bucketIdx i =? 0 then -1 <= subBucketIdx i
      else subBucketHalfCount h <= subBucketIdx i)
  /\ -1 <= j < countsLen h.

Section Slots.

Variable h : Histogram.
Hypothesis G : geometry h.

Lemma half_pos : 0 < subBucketHalfCount h.
Proof. rewrite (geo_half h G). apply Z.pow_pos_nonneg; [lia|]. apply (geo_hm h G). Qed.

Lemma half_le : subBucketHalfCount h <= 2 ^ 17.
Proof.
  rewrite (geo_half h G). apply Z.pow_le_mono_r; [lia|]. apply (geo_hm h G).
Qed.

Lemma count_half : subBucketCount h = 2 * subBucketHalfCount h.
Proof.
  rewrite (geo_count h G), (geo_half h G).
  rewrite Z.pow_add_r by (pose proof (geo_hm h G); lia). lia.
Qed.

Lemma countsLen_half : countsLen h = (bucketCount h + 1) * subBucketHalfCount h.
Proof. rewrite (geo_len h G), (geo_half h G). reflexivity. Qed.

Lemma countsIndex_linear (b sb : Z) :
  0 <= b <= 65 -> -1 <= sb <= subBucketCount h ->
  countsIndex h b sb = b * subBucketHalfCount h + sb.
Proof.
  intros Hb Hsb. unfold countsIndex, shl32.
  pose proof half_pos. pose proof half_le. pose proof count_half.
  pose proof (geo_hm h G) as Hhm.
  replace ((0 <=? subBucketHalfCountMagnitude h)
           && (subBucketHalfCountMagnitude h <? 32)) with true
    by (symmetry; apply andb_true_iff; split; [apply Z.leb_le|apply Z.ltb_lt]; lia).
  rewrite (wrap32_id (b + 1)) by (unfold in32; lia).
  rewrite Z.shiftl_mul_pow2 by lia. rewrite <- (geo_half h G).
  rewrite (wrap32_id ((b + 1) * _)) by (unfold in32; nia).
  rewrite (wrap32_id (sb - _)) by (unfold in32; lia).
  rewrite wrap32_id by (unfold in32; nia). lia.
Qed.

Lemma at_slot_start : at_slot h new_iterator (-1).
Proof.
  unfold at_slot, new_iterator. simpl.
  pose proof half_pos. pose proof count_half.
  pose proof (geo_buckets h G). pose proof countsLen_half.
  repeat split; try lia; nia.
Qed.

Lemma at_slot_address (i : iterator) (j : Z) :
  at_slot h i j -> 0 <= j ->
  bucketIdx i = slot_bucket h j /\ subBucketIdx i = slot_sub h j.
Proof.
  intros (Hb & Hj & Hs & Hc & Hr) Hj0.
  pose proof half_pos. pose proof count_half.
  unfold slot_bucket, slot_sub.
  destruct (bucketIdx i =? 0) eqn:E.
  - apply Z.eqb_eq in E. rewrite E in *.
    replace (j <? subBucketCount h) with true
      by (symmetry; apply Z.ltb_lt; lia). lia.
  - apply Z.eqb_neq in E.
    replace (j <? subBucketCount h) with false
      by (symmetry; apply Z.ltb_ge; nia).
    assert (Ej : j = (bucketIdx i + 1) * subBucketHalfCount h
                     + (subBucketIdx i - subBucketHalfCount h)) by lia.
    assert (Hq : j / subBucketHalfCount h = bucketIdx i + 1).
    { rewrite Ej. symmetry.
      apply (Z.div_unique_pos _ _ _ (subBucketIdx i - subBucketHalfCount h)); lia. }
    assert (Hm : j mod subBucketHalfCount h = subBucketIdx i - subBucketHalfCount h).
    { rewrite Ej. symmetry.
      apply (Z.mod_unique_pos _ _ (bucketIdx i + 1)); lia. }
    lia.
Qed.

End Slots.

Section Iteration.

Variable h : Histogram.
Hypothesis G : geometry h.

(** What the iterator has after a successful [next] onto slot [j]. *)
Definition on_slot (i : iterator) (j : Z) (before : Z) : Prop :=
  at_slot h i j
  /\ counts h !! Z.to_nat j = Some (countAtIdx i)
  /\ countToIdx i = wrap64 (before + countAtIdx i)
  /\ valueFromIdx i = slot_value h j
  /\ i_highestEquivalentValue i = highestEquivalentValue h (slot_value h j).

Lemma at_slot_bucket_bound (i : iterator) (j : Z) :
  at_slot h i j -> bucketIdx i <= bucketCount h - 1.
Proof.
  intros (Hb & Hj & Hs & Hc & Hr).
  pose proof (half_pos h G). pose proof (countsLen_half h G).
  pose proof (geo_buckets h G).
  destruct (bucketIdx i =? 0) eqn:E.
  - apply Z.eqb_eq in E. lia.
  - nia.
Qed.

Lemma iterator_next_cases (i : iterator) (j : Z) :
  at_slot h i j ->
  (totalCount h <= countToIdx i /\ iterator_next h i = Some (false, i))
  \/ (countToIdx i < totalCount h /\ j + 1 = countsLen h
      /\ exists i', iterator_next h i = Some (false, i'))
  \/ (countToIdx i < totalCount h /\ j + 1 < countsLen h
      /\ exists i', iterator_next h i = Some (true, i')
                    /\ on_slot i' (j + 1) (countToIdx i)).
Proof.
  intros A. pose proof (at_slot_bucket_bound i j A) as Bb.
  destruct A as (Hb & Hj & Hs & Hc & Hr).
  pose proof (half_pos h G) as Hp. pose proof (half_le h G) as Hl.
  pose proof (count_half h G) as Hch. pose proof (countsLen_half h G) as Hcl.
  pose proof (geo_buckets h G) as Hbc. pose proof (geo_counts h G) as Hlen.
  unfold iterator_next.
  destruct (totalCount h <=? countToIdx i) eqn:Et.
  { left. apply Z.leb_le in Et. auto. }
  apply Z.leb_gt in Et. right.
  assert (Hsb : -1 <= subBucketIdx i).
  { destruct (bucketIdx i =? 0); lia. }
  rewrite (wrap32_id (subBucketIdx i + 1)) by (unfold in32; lia).
  assert (Succ : forall b sb,
    0 <= b <= bucketCount h - 1 -> 0 <= sb < subBucketCount h ->
    (if b =? 0 then -1 <= sb else subBucketHalfCount h <= sb) ->
    b * subBucketHalfCount h + sb = j + 1 ->
    j + 1 < countsLen h /\
    exists i',
      (if bucketCount h <=? b then Some (false, set_position i b sb)
       else match getCountAtIndex h b sb with
            | Some c =>
                Some (true,
                      {| bucketIdx := b; subBucketIdx := sb; countAtIdx := c;
                         countToIdx := wrap64 (countToIdx i + c);
                         valueFromIdx := valueFromIndex h b sb;
                         i_highestEquivalentValue :=
                           highestEquivalentValue h (valueFromIndex h b sb) |})
            | None => None
            end) = Some (true, i')
      /\ on_slot i' (j + 1) (countToIdx i)).
  { intros b sb Hb' Hsb' Hc' Hj'.
    assert (Hlt : j + 1 < countsLen h) by nia.
    split; [exact Hlt|].
    replace (bucketCount h <=? b) with false by (symmetry; apply Z.leb_gt; lia).
    unfold getCountAtIndex. rewrite countsIndex_linear by (auto; lia).
    rewrite Hj'.
    replace (j + 1 <? 0) with false by (symmetry; apply Z.ltb_ge; lia).
    destruct (lookup_lt_is_Some_2 (counts h) (Z.to_nat (j + 1))) as [c Hcnt];
      [lia|].
    rewrite Hcnt. eexists. split; [reflexivity|].
    assert (A' : at_slot h
                   {| bucketIdx := b; subBucketIdx := sb; countAtIdx := c;
                      countToIdx := wrap64 (countToIdx i + c);
                      valueFromIdx := valueFromIndex h b sb;
                      i_highestEquivalentValue :=
                        highestEquivalentValue h (valueFromIndex h b sb) |}
                   (j + 1)).
    { unfold at_slot. simpl. repeat split; try lia.
      destruct (b =? 0); lia. }
    destruct (at_slot_address h G _ _ A' ltac:(lia)) as [Eb Es]. simpl in Eb, Es.
    unfold on_slot. simpl. split; [exact A'|]. split; [exact Hcnt|].
    split; [reflexivity|]. unfold slot_value. rewrite <- Eb, <- Es. auto. }
  destruct (subBucketCount h <=? subBucketIdx i + 1) eqn:Ec.
  - apply Z.leb_le in Ec.
    rewrite (wrap32_id (bucketIdx i + 1)) by (unfold in32; lia).
    destruct (Z.le_gt_cases (bucketCount h) (bucketIdx i + 1)) as [Ex|Ok].
    + left. split; [lia|]. split; [nia|].
      replace (bucketCount h <=? bucketIdx i + 1) with true
        by (symmetry; apply Z.leb_le; lia).
      eexists. reflexivity.
    + right. split; [lia|].
      apply Succ; try lia.
      replace (bucketIdx i + 1 =? 0) with false
        by (symmetry; apply Z.eqb_neq; lia). lia.
  - apply Z.leb_gt in Ec. right. split; [lia|].
    apply Succ; try lia.
    destruct (bucketIdx i =? 0); lia.
Qed.

End Iteration.

(** ** [bitLen] is the length in bits *)

Definition bits (x : Z) : Z := if x <=? 0 then 0 else Z.log2 x + 1.

Lemma bits_nonneg (x : Z) : 0 <= bits x.
Proof. unfold bits. destruct (x <=? 0); [lia|]. pose proof (Z.log2_nonneg x). lia. Qed.

Lemma bits_spec (x : Z) : 0 < x -> 2 ^ (bits x - 1) <= x < 2 ^ bits x.
Proof.
  intros Hx. unfold bits.
  replace (x <=? 0) with false by (symmetry; apply Z.leb_gt; lia).
  replace (Z.log2 x + 1 - 1) with (Z.log2 x) by lia.
  replace (Z.log2 x + 1) with (Z.succ (Z.log2 x)) by lia.
  apply Z.log2_spec. exact Hx.
Qed.

Lemma bits_unique (x n : Z) : 0 < n -> 2 ^ (n - 1) <= x < 2 ^ n -> bits x = n.
Proof.
  intros Hn Hx. assert (0 < x).
  { assert (0 < 2 ^ (n - 1)) by (apply Z.pow_pos_nonneg; lia). lia. }
  unfold bits. replace (x <=? 0) with false by (symmetry; apply Z.leb_gt; lia).
  rewrite (Z.log2_unique x (n - 1)); [lia|lia|].
  replace (Z.succ (n - 1)) with n by lia. exact Hx.
Qed.

Lemma bits_lt_pow2 (x n : Z) : 0 <= n -> 0 <= x < 2 ^ n -> bits x <= n.
Proof.
  intros Hn Hx. unfold bits. destruct (x <=? 0) eqn:E; [lia|].
  apply Z.leb_gt in E. assert (Z.log2 x < n) by (apply Z.log2_lt_pow2; lia). lia.
Qed.

Lemma bits_ge_pow2 (x n : Z) : 0 <= n -> 2 ^ n <= x -> n + 1 <= bits x.
Proof.
  intros Hn Hx. assert (0 < 2 ^ n) by (apply Z.pow_pos_nonneg; lia).
  unfold bits. replace (x <=? 0) with false by (symmetry; apply Z.leb_gt; lia).
  assert (n <= Z.log2 x) by (apply Z.log2_le_pow2; lia). lia.
Qed.

Lemma bits_shiftr (x k : Z) :
  0 < k -> 2 ^ (k - 1) <= x -> bits (Z.shiftr x k) = bits x - k.
Proof.
  intros Hk Hx.
  assert (P : 0 < 2 ^ (k - 1)) by (apply Z.pow_pos_nonneg; lia).
  assert (E2 : 2 ^ k = 2 * 2 ^ (k - 1)).
  { replace k with (Z.succ (k - 1)) at 1 by lia. rewrite Z.pow_succ_r; lia. }
  rewrite Z.shiftr_div_pow2 by lia.
  destruct (Z.lt_ge_cases x (2 ^ k)) as [Lt|Ge].
  - rewrite Z.div_small by lia.
    rewrite (bits_unique x k) by lia. unfold bits. simpl. lia.
  - pose proof (bits_spec x ltac:(lia)) as Bx.
    pose proof (bits_ge_pow2 x k ltac:(lia) Ge) as Bk.
    apply bits_unique; [lia|].
    replace (bits x - k - 1) with (bits x - 1 - k) by lia.
    assert (Ea : 2 ^ (bits x - 1) = 2 ^ (bits x - 1 - k) * 2 ^ k).
    { rewrite <- Z.pow_add_r by lia. f_equal. lia. }
    assert (Eb : 2 ^ bits x = 2 ^ (bits x - k) * 2 ^ k).
    { rewrite <- Z.pow_add_r by lia. f_equal. lia. }
    split.
    + apply Z.div_le_lower_bound; lia.
    + apply Z.div_lt_upper_bound; lia.
Qed.

Lemma bitLen_loop_bits (fuel : nat) :
  forall (x n : Z),
    0 <= x < 2 ^ (16 * Z.of_nat fuel - 1) ->
    0 <= n -> n + 16 * Z.of_nat fuel <= 1000 ->
    let '(x', n') := bitLen_loop fuel x n in
    0 <= x' < 2 ^ 15 /\ n' + bits x' = n + bits x
    /\ 0 <= n' <= n + 16 * Z.of_nat fuel.
Proof.
  induction fuel as [|fuel IH]; intros x n Hx Hn Hf.
  - simpl in Hx. change (2 ^ (-1)) with 0 in Hx. lia.
  - simpl bitLen_loop. destruct (32768 <=? x) eqn:E.
    + apply Z.leb_le in E.
      rewrite (wrap64_id (n + 16)) by (unfold in64; lia).
      destruct fuel as [|fuel].
      { exfalso. change (2 ^ (16 * Z.of_nat 1 - 1)) with 32768 in Hx. lia. }
      specialize (IH (Z.shiftr x 16) (n + 16)).
      destruct (bitLen_loop (S fuel) (Z.shiftr x 16) (n + 16)) as [x' n'].
      rewrite (bits_shiftr x 16) in IH by (change (2 ^ (16 - 1)) with 32768; lia).
      destruct IH as (A & B & C).
      * rewrite Z.shiftr_div_pow2 by lia. split; [apply Z.div_pos; lia|].
        apply Z.div_lt_upper_bound; [lia|].
        rewrite <- Z.pow_add_r by lia.
        replace (16 + (16 * Z.of_nat (S fuel) - 1))
          with (16 * Z.of_nat (S (S fuel)) - 1) by lia. lia.
      * lia.
      * lia.
      * repeat split; lia.
    + apply Z.leb_gt in E. repeat split; lia.
Qed.

Lemma bitLen_step (k : Z) (x n : Z) :
  0 < k <= 16 -> 0 <= x < 2 ^ (2 * k - 1) -> 0 <= n <= 1000 ->
  let '(x', n') :=
    if 2 ^ (k - 1) <=? x then (Z.shiftr x k, wrap64 (n + k)) else (x, n) in
  n' + bits x' = n + bits x /\ 0 <= x' < 2 ^ (k - 1) /\ 0 <= n' <= n + k.
Proof.
  intros Hk Hx Hn.
  assert (P : 0 < 2 ^ (k - 1)) by (apply Z.pow_pos_nonneg; lia).
  destruct (2 ^ (k - 1) <=? x) eqn:E.
  - apply Z.leb_le in E. rewrite wrap64_id by (unfold in64; lia).
    rewrite bits_shiftr by lia.
    rewrite Z.shiftr_div_pow2 by lia.
    split; [lia|]. split; [|lia].
    split; [apply Z.div_pos; [lia|apply Z.pow_pos_nonneg; lia]|].
    apply Z.div_lt_upper_bound; [apply Z.pow_pos_nonneg; lia|].
    rewrite <- Z.pow_add_r by lia.
    replace (k + (k - 1)) with (2 * k - 1) by lia. lia.
  - apply Z.leb_gt in E. lia.
Qed.

Lemma bitLen_bits (x : Z) : 0 <= x < 2 ^ 63 -> bitLen x = bits x.
Proof.
  intros Hx. unfold bitLen.
  assert (L := bitLen_loop_bits 4 x 0).
  change (2 ^ (16 * Z.of_nat 4 - 1)) with (2 ^ 63) in L.
  change (16 * Z.of_nat 4) with 64 in L.
  specialize (L Hx ltac:(lia) ltac:(lia)).
  destruct (bitLen_loop 4 x 0) as [x1 n1]. destruct L as (B1 & E1 & N1).
  rewrite Z.add_0_l in E1. rewrite <- E1. clear E1 Hx x.
  assert (S8 := bitLen_step 8 x1 n1 ltac:(lia) B1 ltac:(lia)).
  change (2 ^ (8 - 1)) with 128 in S8.
  destruct (if 128 <=? x1 then _ else _) as [x2 n2].
  destruct S8 as (E2 & B2 & N2). rewrite <- E2. clear E2 B1 x1.
  assert (S4 := bitLen_step 4 x2 n2 ltac:(lia) ltac:(simpl; lia) ltac:(lia)).
  change (2 ^ (4 - 1)) with 8 in S4.
  destruct (if 8 <=? x2 then _ else _) as [x3 n3].
  destruct S4 as (E3 & B3 & N3). rewrite <- E3. clear E3 B2 x2.
  assert (S2 := bitLen_step 2 x3 n3 ltac:(lia) ltac:(simpl; lia) ltac:(lia)).
  change (2 ^ (2 - 1)) with 2 in S2.
  destruct (if 2 <=? x3 then _ else _) as [x4 n4].
  destruct S2 as (E4 & B4 & N4). rewrite <- E4. clear E4 B3 x3.
  assert (C : x4 = 0 \/ x4 = 1) by lia.
  destruct C as [-> | ->]; simpl.
  - unfold bits. simpl. lia.
  - rewrite wrap64_id by (unfold in64; lia). unfold bits. simpl. lia.
Qed.

Lemma bitLen_neg (x : Z) : x < 0 -> bitLen x = 0.
Proof.
  intros Hx. unfold bitLen.
  change (bitLen_loop 4 x 0)
    with (if 32768 <=? x
          then bitLen_loop 3 (Z.shiftr x 16) (wrap64 (0 + 16)) else (x, 0)).
  replace (32768 <=? x) with false by (symmetry; apply Z.leb_gt; lia).
  replace (128 <=? x) with false by (symmetry; apply Z.leb_gt; lia).
  replace (8 <=? x) with false by (symmetry; apply Z.leb_gt; lia).
  replace (2 <=? x) with false by (symmetry; apply Z.leb_gt; lia).
  replace (1 <=? x) with false by (symmetry; apply Z.leb_gt; lia).
  reflexivity.
Qed.

(** ** Values and their slots *)

Section Values.

Variable h : Histogram.
Hypothesis G : geometry h.

(** The bit length of the sub-bucket mask. *)
Definition mask_bits : Z := unitMagnitude h + subBucketHalfCountMagnitude h + 1.

(** The mask fits an [int64]; where it does not, [New] has let the
    shift overflow. *)
Hypothesis K : mask_bits <= 63.

Lemma pow2_split (a b : Z) : 0 <= a -> 0 <= b -> 2 ^ (a + b) = 2 ^ a * 2 ^ b.
Proof. intros. apply Z.pow_add_r; assumption. Qed.

Lemma pow2_pos (a : Z) : 0 <= a -> 0 < 2 ^ a.
Proof. intros. apply Z.pow_pos_nonneg; lia. Qed.

Lemma pow2_le (a b : Z) : 0 <= a <= b -> 2 ^ a <= 2 ^ b.
Proof. intros. apply Z.pow_le_mono_r; lia. Qed.

Lemma pow2_lt (a b : Z) : 0 <= a < b -> 2 ^ a < 2 ^ b.
Proof. intros. apply Z.pow_lt_mono_r; lia. Qed.

Lemma mask_value :
  subBucketMask h = 2 ^ mask_bits - 2 ^ unitMagnitude h
  /\ 2 ^ (mask_bits - 1) <= subBucketMask h < 2 ^ mask_bits.
Proof.
  pose proof (geo_hm h G) as Hhm. pose proof (geo_um h G) as Hum.
  unfold mask_bits in *. rewrite (geo_mask h G). unfold shl64.
  replace ((0 <=? unitMagnitude h) && (unitMagnitude h <? 64)) with true
    by (symmetry; apply andb_true_iff; split; [apply Z.leb_le|apply Z.ltb_lt]; lia).
  rewrite Z.shiftl_mul_pow2 by lia.
  assert (E : 2 ^ (unitMagnitude h + subBucketHalfCountMagnitude h + 1)
              = 2 ^ (subBucketHalfCountMagnitude h + 1) * 2 ^ unitMagnitude h).
  { rewrite <- pow2_split by lia. f_equal. lia. }
  assert (E' : 2 ^ (unitMagnitude h + subBucketHalfCountMagnitude h + 1 - 1)
               = 2 ^ subBucketHalfCountMagnitude h * 2 ^ unitMagnitude h).
  { rewrite <- pow2_split by lia. f_equal. lia. }
  assert (E2 : 2 ^ (subBucketHalfCountMagnitude h + 1)
               = 2 * 2 ^ subBucketHalfCountMagnitude h).
  { rewrite pow2_split by lia. change (2 ^ 1) with 2. lia. }
  pose proof (pow2_pos (unitMagnitude h) ltac:(lia)).
  pose proof (pow2_pos (subBucketHalfCountMagnitude h) ltac:(lia)).
  pose proof (pow2_le (unitMagnitude h + subBucketHalfCountMagnitude h + 1) 63
                ltac:(lia)).
  rewrite wrap64_id by (unfold in64; nia).
  split; [nia|]. rewrite E, E'. nia.
Qed.

Lemma bits_mask : bits (subBucketMask h) = mask_bits.
Proof.
  apply bits_unique; [|apply mask_value].
  pose proof (geo_hm h G). pose proof (geo_um h G). unfold mask_bits. lia.
Qed.

Lemma bits_lor_mask (v : Z) :
  0 <= v -> bits (Z.lor v (subBucketMask h)) = Z.max (bits v) mask_bits.
Proof.
  intros Hv. destruct mask_value as [_ [M1 M2]].
  assert (Hk : 0 < mask_bits).
  { pose proof (geo_hm h G). pose proof (geo_um h G). unfold mask_bits. lia. }
  pose proof (pow2_pos (mask_bits - 1) ltac:(lia)) as P.
  rewrite <- bits_mask.
  destruct (Z.eq_dec v 0) as [->|Hne].
  - rewrite Z.lor_0_l. pose proof (bits_nonneg (subBucketMask h)).
    unfold bits at 2. simpl. lia.
  - unfold bits.
    replace (v <=? 0) with false by (symmetry; apply Z.leb_gt; lia).
    replace (subBucketMask h <=? 0) with false by (symmetry; apply Z.leb_gt; lia).
    assert (0 < Z.lor v (subBucketMask h)).
    { assert (0 <= Z.lor v (subBucketMask h)) by (apply Z.lor_nonneg; lia).
      assert (Z.lor v (subBucketMask h) <> 0).
      { intros E. apply Z.lor_eq_0_iff in E. lia. }
      lia. }
    replace (Z.lor v (subBucketMask h) <=? 0) with false
      by (symmetry; apply Z.leb_gt; lia).
    rewrite Z.log2_lor by lia. lia.
Qed.

(** The bucket of a non-negative value, and the shift that gives its
    sub-bucket. *)
Definition value_bucket (v : Z) : Z := Z.max (bits v) mask_bits - mask_bits.

Definition value_shift (v : Z) : Z := value_bucket v + unitMagnitude h.

Lemma value_bucket_bounds (v : Z) :
  0 <= v < 2 ^ 63 ->
  0 <= value_bucket v /\ value_bucket v + mask_bits <= 63
  /\ 0 <= value_shift v <= 62.
Proof.
  intros Hv. pose proof (geo_hm h G). pose proof (geo_um h G).
  pose proof (bits_lt_pow2 v 63 ltac:(lia) Hv). pose proof (bits_nonneg v).
  unfold value_shift, value_bucket, mask_bits in *. lia.
Qed.

Lemma getBucketIndex_value (v : Z) :
  0 <= v < 2 ^ 63 -> getBucketIndex h v = value_bucket v.
Proof.
  intros Hv. pose proof (value_bucket_bounds v Hv) as (B1 & B2 & B3).
  pose proof (geo_hm h G). pose proof (geo_um h G).
  unfold getBucketIndex.
  assert (L : 0 <= Z.lor v (subBucketMask h) < 2 ^ 63).
  { split; [apply Z.lor_nonneg; destruct mask_value as [_ [M1 M2]];
            pose proof (pow2_pos (mask_bits - 1) ltac:(unfold mask_bits; lia)); lia|].
    pose proof (bits_lor_mask v ltac:(lia)) as E.
    destruct (Z.eq_dec (Z.lor v (subBucketMask h)) 0) as [->|Hne]; [lia|].
    assert (0 <= Z.lor v (subBucketMask h)).
    { apply Z.lor_nonneg. destruct mask_value as [_ [M1 M2]].
      pose proof (pow2_pos (mask_bits - 1) ltac:(unfold mask_bits; lia)). lia. }
    pose proof (bits_spec (Z.lor v (subBucketMask h)) ltac:(lia)) as [_ U].
    rewrite E in U.
    assert (2 ^ Z.max (bits v) mask_bits <= 2 ^ 63).
    { apply pow2_le. pose proof (bits_nonneg v). unfold value_bucket in *. lia. }
    lia. }
  rewrite bitLen_bits by exact L. rewrite bits_lor_mask by lia.
  unfold value_bucket, mask_bits in *.
  rewrite (wrap32_id (_ + 1)) by (unfold in32; lia).
  rewrite (wrap64_id (_ - unitMagnitude h)) by (unfold in64; lia).
  rewrite wrap64_id by (unfold in64; lia).
  rewrite wrap32_id by (unfold in32; lia). lia.
Qed.

Lemma value_sub_bounds (v : Z) :
  0 <= v < 2 ^ 63 ->
  0 <= v / 2 ^ value_shift v < subBucketCount h
  /\ (0 < value_bucket v -> subBucketHalfCount h <= v / 2 ^ value_shift v).
Proof.
  intros Hv. pose proof (value_bucket_bounds v Hv) as (B1 & B2 & B3).
  pose proof (geo_hm h G) as Hhm. pose proof (geo_um h G) as Hum.
  pose proof (pow2_pos (value_shift v) ltac:(lia)) as Ps.
  rewrite (geo_count h G), (geo_half h G).
  assert (Es : value_shift v + (subBucketHalfCountMagnitude h + 1)
               = Z.max (bits v) mask_bits).
  { unfold value_shift, value_bucket, mask_bits. lia. }
  split; [split|].
  - apply Z.div_pos; lia.
  - apply Z.div_lt_upper_bound; [lia|].
    rewrite <- pow2_split by lia. rewrite Es.
    destruct (Z.eq_dec v 0) as [->|Hne].
    + apply pow2_pos. pose proof (bits_nonneg 0). lia.
    + pose proof (bits_spec v ltac:(lia)) as [_ U].
      assert (2 ^ bits v <= 2 ^ Z.max (bits v) mask_bits)
        by (apply pow2_le; pose proof (bits_nonneg v); lia).
      lia.
  - intros Hb. apply Z.div_le_lower_bound; [lia|].
    rewrite <- pow2_split by lia.
    assert (Eb : bits v = Z.max (bits v) mask_bits)
      by (unfold value_bucket in Hb; lia).
    assert (0 < v).
    { destruct (Z.eq_dec v 0) as [->|]; [|lia].
      unfold bits in Eb. simpl in Eb. unfold mask_bits in *. lia. }
    pose proof (bits_spec v ltac:(lia)) as [L _].
    replace (value_shift v + subBucketHalfCountMagnitude h) with (bits v - 1)
      by lia. exact L.
Qed.

Lemma getSubBucketIdx_value (v : Z) :
  0 <= v < 2 ^ 63 ->
  getSubBucketIdx h v (value_bucket v) = v / 2 ^ value_shift v.
Proof.
  intros Hv. pose proof (value_bucket_bounds v Hv) as (B1 & B2 & B3).
  pose proof (value_sub_bounds v Hv) as [[S1 S2] _].
  pose proof (geo_hm h G) as Hhm.
  assert (subBucketCount h <= 2 ^ 18).
  { rewrite (geo_count h G). apply pow2_le. lia. }
  unfold getSubBucketIdx. fold (value_shift v).
  rewrite wrap64_id by (unfold in64; lia). unfold shr64.
  replace ((0 <=? value_shift v) && (value_shift v <? 64)) with true
    by (symmetry; apply andb_true_iff; split; [apply Z.leb_le|apply Z.ltb_lt]; lia).
  rewrite Z.shiftr_div_pow2 by lia.
  apply wrap32_id. unfold in32. lia.
Qed.

End Values.

Section ValueSlots.

Variable h : Histogram.
Hypothesis G : geometry h.
Hypothesis K : mask_bits h <= 63.

Lemma countsIndexFor_value (v : Z) :
  0 <= v < 2 ^ 63 ->
  countsIndexFor h v
  = value_bucket h v * subBucketHalfCount h + v / 2 ^ value_shift h v.
Proof.
  intros Hv. pose proof (value_bucket_bounds h G K v Hv) as (B1 & B2 & B3).
  pose proof (value_sub_bounds h G K v Hv) as [[S1 S2] _].
  pose proof (geo_hm h G). pose proof (geo_um h G).
  unfold countsIndexFor.
  rewrite (getBucketIndex_value h G K v Hv), (getSubBucketIdx_value h G K v Hv).
  apply (countsIndex_linear h G); unfold mask_bits in *; lia.
Qed.

Lemma lowestEquivalentValue_value (v : Z) :
  0 <= v < 2 ^ 63 ->
  lowestEquivalentValue h v = v / 2 ^ value_shift h v * 2 ^ value_shift h v.
Proof.
  intros Hv. pose proof (value_bucket_bounds h G K v Hv) as (B1 & B2 & B3).
  pose proof (value_sub_bounds h G K v Hv) as [[S1 S2] _].
  pose proof (pow2_pos (value_shift h v) ltac:(lia)) as Ps.
  unfold lowestEquivalentValue.
  rewrite (getBucketIndex_value h G K v Hv), (getSubBucketIdx_value h G K v Hv).
  unfold valueFromIndex. fold (value_shift h v).
  rewrite wrap64_id by (unfold in64; lia). unfold shl64.
  replace ((0 <=? value_shift h v) && (value_shift h v <? 64)) with true
    by (symmetry; apply andb_true_iff; split; [apply Z.leb_le|apply Z.ltb_lt]; lia).
  rewrite Z.shiftl_mul_pow2 by lia.
  apply wrap64_id. unfold in64.
  pose proof (Z.mul_div_le v (2 ^ value_shift h v) Ps). nia.
Qed.

Lemma sizeOfEquivalentValueRange_value (v : Z) :
  0 <= v < 2 ^ 63 ->
  sizeOfEquivalentValueRange h v = 2 ^ value_shift h v.
Proof.
  intros Hv. pose proof (value_bucket_bounds h G K v Hv) as (B1 & B2 & B3).
  pose proof (value_sub_bounds h G K v Hv) as [[S1 S2] _].
  unfold sizeOfEquivalentValueRange.
  rewrite (getBucketIndex_value h G K v Hv), (getSubBucketIdx_value h G K v Hv).
  replace (subBucketCount h <=? v / 2 ^ value_shift h v) with false
    by (symmetry; apply Z.leb_gt; lia).
  replace (unitMagnitude h + value_bucket h v) with (value_shift h v)
    by (unfold value_shift; lia).
  rewrite wrap64_id by (unfold in64; lia). unfold shl64.
  replace ((0 <=? value_shift h v) && (value_shift h v <? 64)) with true
    by (symmetry; apply andb_true_iff; split; [apply Z.leb_le|apply Z.ltb_lt]; lia).
  rewrite Z.shiftl_mul_pow2 by lia. rewrite Z.mul_1_l.
  apply wrap64_id. unfold in64.
  pose proof (pow2_pos (value_shift h v) ltac:(lia)).
  pose proof (pow2_lt (value_shift h v) 63 ltac:(lia)). lia.
Qed.

(** The first value of the next equivalence class is at most [2^63]. *)
Lemma next_class_bound (v : Z) :
  0 <= v < 2 ^ 63 ->
  v < (v / 2 ^ value_shift h v + 1) * 2 ^ value_shift h v <= 2 ^ 63.
Proof.
  intros Hv. pose proof (value_bucket_bounds h G K v Hv) as (B1 & B2 & B3).
  pose proof (value_sub_bounds h G K v Hv) as [[S1 S2] _].
  pose proof (geo_hm h G) as Hhm.
  pose proof (pow2_pos (value_shift h v) ltac:(lia)) as Ps.
  split.
  - pose proof (Z.mul_succ_div_gt v (2 ^ value_shift h v) Ps). lia.
  - rewrite (geo_count h G) in S2.
    assert (E : 2 ^ (subBucketHalfCountMagnitude h + 1) * 2 ^ value_shift h v
                <= 2 ^ 63).
    { rewrite <- pow2_split by lia. apply pow2_le.
      unfold value_shift, mask_bits in *. lia. }
    nia.
Qed.

Lemma highestEquivalentValue_value (v : Z) :
  0 <= v < 2 ^ 63 ->
  highestEquivalentValue h v
  = (v / 2 ^ value_shift h v + 1) * 2 ^ value_shift h v - 1.
Proof.
  intros Hv. pose proof (next_class_bound v Hv) as [N1 N2].
  unfold highestEquivalentValue, nextNonEquivalentValue.
  rewrite (lowestEquivalentValue_value v Hv),
    (sizeOfEquivalentValueRange_value v Hv).
  replace (wrap64 (v / 2 ^ value_shift h v * 2 ^ value_shift h v
                   + 2 ^ value_shift h v) - 1)
    with (wrap64 (v / 2 ^ value_shift h v * 2 ^ value_shift h v
                  + 2 ^ value_shift h v) + (- 1)) by lia.
  rewrite wrap64_add_l. rewrite wrap64_id by (unfold in64; lia). lia.
Qed.

Lemma highestEquivalentValue_ge (v : Z) :
  0 <= v < 2 ^ 63 -> v <= highestEquivalentValue h v < 2 ^ 63.
Proof.
  intros Hv. rewrite (highestEquivalentValue_value v Hv).
  pose proof (next_class_bound v Hv). lia.
Qed.

End ValueSlots.

(** ** Slots and their values *)

Definition valid_address (h : Histogram) (b sb : Z) : Prop :=
  0 <= b /\ sb < subBucketCount h
  /\ (if b =? 0 then 0 <= sb else subBucketHalfCount h <= sb).

(** The representative value of the slot fits an [int64]. *)
Definition slot_fits (h : Histogram) (j : Z) : Prop :=
  slot_bucket h j + mask_bits h <= 63.

Section SlotValues.

Variable h : Histogram.
Hypothesis G : geometry h.

Lemma address_unique (b sb j : Z) :
  valid_address h b sb -> b * subBucketHalfCount h + sb = j ->
  slot_bucket h j = b /\ slot_sub h j = sb.
Proof.
  intros (Hb & Hs & Hc) Hj.
  pose proof (half_pos h G). pose proof (count_half h G).
  unfold slot_bucket, slot_sub.
  destruct (b =? 0) eqn:E.
  - apply Z.eqb_eq in E. subst b.
    replace (j <? subBucketCount h) with true
      by (symmetry; apply Z.ltb_lt; lia). lia.
  - apply Z.eqb_neq in E.
    replace (j <? subBucketCount h) with false
      by (symmetry; apply Z.ltb_ge; nia).
    assert (Ej : j = (b + 1) * subBucketHalfCount h
                     + (sb - subBucketHalfCount h)) by lia.
    assert (Hq : j / subBucketHalfCount h = b + 1).
    { rewrite Ej. symmetry.
      apply (Z.div_unique_pos _ _ _ (sb - subBucketHalfCount h)); lia. }
    assert (Hm : j mod subBucketHalfCount h = sb - subBucketHalfCount h).
    { rewrite Ej. symmetry. apply (Z.mod_unique_pos _ _ (b + 1)); lia. }
    lia.
Qed.

Lemma slot_address_valid (j : Z) :
  0 <= j ->
  valid_address h (slot_bucket h j) (slot_sub h j)
  /\ slot_bucket h j * subBucketHalfCount h + slot_sub h j = j.
Proof.
  intros Hj. pose proof (half_pos h G) as Hp. pose proof (count_half h G) as Hc.
  unfold valid_address, slot_bucket, slot_sub.
  destruct (j <? subBucketCount h) eqn:E.
  - apply Z.ltb_lt in E. simpl. lia.
  - apply Z.ltb_ge in E.
    pose proof (Z.mod_pos_bound j (subBucketHalfCount h) Hp).
    pose proof (Z.div_mod j (subBucketHalfCount h) ltac:(lia)).
    assert (2 <= j / subBucketHalfCount h)
      by (apply Z.div_le_lower_bound; lia).
    replace (j / subBucketHalfCount h - 1 =? 0) with false
      by (symmetry; apply Z.eqb_neq; lia).
    repeat split; try lia; nia.
Qed.

Hypothesis K : mask_bits h <= 63.

Lemma address_value (b sb : Z) :
  valid_address h b sb -> b + mask_bits h <= 63 ->
  let x := sb * 2 ^ (b + unitMagnitude h) in
  valueFromIndex h b sb = x /\ 0 <= x < 2 ^ 63
  /\ value_bucket h x = b /\ x / 2 ^ (b + unitMagnitude h) = sb.
Proof.
  intros (Hb & Hs & Hc) Hf x.
  pose proof (geo_hm h G) as Hhm. pose proof (geo_um h G) as Hum.
  pose proof (pow2_pos (b + unitMagnitude h) ltac:(lia)) as Ps.
  pose proof (pow2_pos (subBucketHalfCountMagnitude h) ltac:(lia)) as Ph.
  rewrite (geo_count h G) in Hs. rewrite (geo_half h G) in Hc.
  assert (E1 : 2 ^ (subBucketHalfCountMagnitude h + 1)
               * 2 ^ (b + unitMagnitude h) = 2 ^ (b + mask_bits h)).
  { rewrite <- pow2_split by lia. f_equal. unfold mask_bits. lia. }
  assert (E0 : 2 ^ subBucketHalfCountMagnitude h
               * 2 ^ (b + unitMagnitude h) = 2 ^ (b + mask_bits h - 1)).
  { rewrite <- pow2_split by lia. f_equal. unfold mask_bits. lia. }
  pose proof (pow2_le (b + mask_bits h) 63 ltac:(unfold mask_bits in *; lia)) as L63.
  assert (Hsb : 0 <= sb) by (destruct (b =? 0); lia).
  assert (Bx : 0 <= x < 2 ^ (b + mask_bits h)) by (unfold x; nia).
  split; [|split; [lia|split]].
  - unfold valueFromIndex. rewrite wrap64_id by (unfold in64, mask_bits in *; lia).
    unfold shl64.
    replace ((0 <=? b + unitMagnitude h) && (b + unitMagnitude h <? 64)) with true
      by (symmetry; apply andb_true_iff; split;
          [apply Z.leb_le|apply Z.ltb_lt]; unfold mask_bits in *; lia).
    rewrite Z.shiftl_mul_pow2 by lia. apply wrap64_id. unfold in64. fold x. lia.
  - unfold value_bucket. destruct (b =? 0) eqn:E.
    + apply Z.eqb_eq in E. subst b. rewrite Z.add_0_l in Bx.
      pose proof (bits_lt_pow2 x (mask_bits h)
                    ltac:(unfold mask_bits; lia) Bx). lia.
    + apply Z.eqb_neq in E.
      rewrite (bits_unique x (b + mask_bits h));
        [lia | unfold mask_bits; lia |].
      split; [|lia]. rewrite <- E0. unfold x. nia.
  - unfold x. apply Z.div_mul. lia.
Qed.

End SlotValues.

Section FittingSlots.

Variable h : Histogram.
Hypothesis G : geometry h.

Lemma slot_bucket_nonneg (j : Z) : 0 <= j -> 0 <= slot_bucket h j.
Proof. intros Hj. destruct (slot_address_valid h G j Hj) as [(B & _) _]. exact B. Qed.

Lemma slot_fits_mask (j : Z) : 0 <= j -> slot_fits h j -> mask_bits h <= 63.
Proof. intros Hj F. pose proof (slot_bucket_nonneg j Hj). unfold slot_fits in F. lia. Qed.

Lemma slot_value_facts (j : Z) :
  0 <= j -> slot_fits h j ->
  let x := slot_value h j in
  let s := slot_bucket h j + unitMagnitude h in
  x = slot_sub h j * 2 ^ s /\ 0 <= x < 2 ^ 63
  /\ value_shift h x = s /\ x / 2 ^ s = slot_sub h j.
Proof.
  intros Hj F x s. pose proof (slot_fits_mask j Hj F) as K.
  destruct (slot_address_valid h G j Hj) as [V _].
  destruct (address_value h G _ _ V F) as (E1 & E2 & E3 & E4).
  unfold x, slot_value, s. rewrite E1. unfold value_shift. rewrite E3. auto.
Qed.

Lemma countsIndexFor_slot_value (j : Z) :
  0 <= j -> slot_fits h j -> countsIndexFor h (slot_value h j) = j.
Proof.
  intros Hj F. pose proof (slot_fits_mask j Hj F) as K.
  destruct (slot_value_facts j Hj F) as (E1 & E2 & E3 & E4).
  destruct (slot_address_valid h G j Hj) as [V Ej].
  destruct (address_value h G _ _ V F) as (_ & _ & E5 & _).
  rewrite (countsIndexFor_value h G K _ E2). rewrite E3, E4.
  unfold slot_value. rewrite (proj1 (address_value h G _ _ V F)).
  rewrite E5. exact Ej.
Qed.

Lemma lowestEquivalentValue_slot_value (j : Z) :
  0 <= j -> slot_fits h j ->
  lowestEquivalentValue h (slot_value h j) = slot_value h j.
Proof.
  intros Hj F. pose proof (slot_fits_mask j Hj F) as K.
  destruct (slot_value_facts j Hj F) as (E1 & E2 & E3 & E4).
  rewrite (lowestEquivalentValue_value h G K _ E2). rewrite E3, E4. auto.
Qed.

Lemma highestEquivalentValue_slot_value (j : Z) :
  0 <= j -> slot_fits h j ->
  highestEquivalentValue h (slot_value h j)
  = (slot_sub h j + 1) * 2 ^ (slot_bucket h j + unitMagnitude h) - 1.
Proof.
  intros Hj F. pose proof (slot_fits_mask j Hj F) as K.
  destruct (slot_value_facts j Hj F) as (E1 & E2 & E3 & E4).
  rewrite (highestEquivalentValue_value h G K _ E2). rewrite E3, E4. reflexivity.
Qed.

(** The highest equivalent value of a slot's value lies in the slot. *)
Lemma lowest_of_highest_slot_value (j : Z) :
  0 <= j -> slot_fits h j ->
  lowestEquivalentValue h (highestEquivalentValue h (slot_value h j))
  = slot_value h j.
Proof.
  intros Hj F. pose proof (slot_fits_mask j Hj F) as K.
  destruct (slot_value_facts j Hj F) as (E1 & E2 & E3 & E4).
  destruct (slot_address_valid h G j Hj) as [V Ej].
  destruct (address_value h G _ _ V F) as (_ & _ & E5 & _).
  rewrite <- E1 in E5.
  pose proof (highestEquivalentValue_ge h G K _ E2) as Hy.
  rewrite (highestEquivalentValue_slot_value j Hj F) in *.
  set (s := slot_bucket h j + unitMagnitude h) in *.
  set (sb := slot_sub h j) in *.
  set (y := (sb + 1) * 2 ^ s - 1) in *.
  pose proof (geo_hm h G) as Hhm. pose proof (geo_um h G) as Hum.
  pose proof (slot_bucket_nonneg j Hj) as Hb.
  pose proof (pow2_pos s ltac:(unfold s; lia)) as Ps.
  destruct V as (_ & Vs & Vc). fold sb in Vs, Vc.
  rewrite (geo_count h G) in Vs. rewrite (geo_half h G) in Vc.
  assert (Hy2 : 0 <= y < 2 ^ 63) by lia.
  assert (Dy : y / 2 ^ s = sb).
  { symmetry. apply (Z.div_unique_pos y (2 ^ s) sb (2 ^ s - 1)); [lia|].
    unfold y. lia. }
  assert (By : value_bucket h y = slot_bucket h j).
  { unfold value_bucket in *.
    assert (E1' : 2 ^ (subBucketHalfCountMagnitude h + 1) * 2 ^ s
                  = 2 ^ (slot_bucket h j + mask_bits h)).
    { rewrite <- pow2_split by (unfold s; lia). f_equal. unfold s, mask_bits. lia. }
    assert (Uy : y < 2 ^ (slot_bucket h j + mask_bits h)) by (unfold y; nia).
    destruct (slot_bucket h j =? 0) eqn:E.
    - apply Z.eqb_eq in E. rewrite E in Uy. rewrite Z.add_0_l in Uy.
      pose proof (bits_lt_pow2 y (mask_bits h)
                    ltac:(unfold mask_bits; lia) ltac:(lia)). lia.
    - apply Z.eqb_neq in E.
      assert (Bx : bits (slot_value h j) = slot_bucket h j + mask_bits h).
      { pose proof (bits_nonneg (slot_value h j)). unfold mask_bits in *. lia. }
      assert (0 < slot_value h j).
      { destruct (Z.eq_dec (slot_value h j) 0) as [Z0|]; [|lia].
        rewrite Z0 in Bx. unfold bits in Bx. simpl in Bx.
        unfold mask_bits in *. lia. }
      pose proof (bits_spec (slot_value h j) ltac:(lia)) as [Lx _].
      rewrite Bx in Lx.
      rewrite (bits_unique y (slot_bucket h j + mask_bits h));
        [lia | unfold mask_bits; lia | lia]. }
  rewrite (lowestEquivalentValue_value h G K y Hy2).
  unfold value_shift. rewrite By. fold s. rewrite Dy. symmetry. exact E1.
Qed.

Lemma slot_address_le (j1 j2 : Z) :
  0 <= j1 <= j2 ->
  slot_bucket h j1 < slot_bucket h j2
  \/ (slot_bucket h j1 = slot_bucket h j2 /\ slot_sub h j1 <= slot_sub h j2).
Proof.
  intros Hj.
  destruct (slot_address_valid h G j1 ltac:(lia)) as [(B1 & S1 & C1) E1].
  destruct (slot_address_valid h G j2 ltac:(lia)) as [(B2 & S2 & C2) E2].
  pose proof (half_pos h G). pose proof (count_half h G).
  destruct (Z.lt_trichotomy (slot_bucket h j1) (slot_bucket h j2)) as [L|[E|L]].
  - left. exact L.
  - right. split; [exact E|]. rewrite E in E1. lia.
  - exfalso.
    assert (Eb : (slot_bucket h j1 =? 0) = false) by (apply Z.eqb_neq; lia).
    rewrite Eb in C1.
    assert (Hs2 : 0 <= slot_sub h j2) by (destruct (slot_bucket h j2 =? 0); lia).
    nia.
Qed.

Lemma highestEquivalentValue_slot_mono (j1 j2 : Z) :
  0 <= j1 <= j2 -> slot_fits h j1 -> slot_fits h j2 ->
  highestEquivalentValue h (slot_value h j1)
  <= highestEquivalentValue h (slot_value h j2).
Proof.
  intros Hj F1 F2.
  rewrite (highestEquivalentValue_slot_value j1 ltac:(lia) F1).
  rewrite (highestEquivalentValue_slot_value j2 ltac:(lia) F2).
  destruct (slot_address_valid h G j1 ltac:(lia)) as [(B1 & S1 & C1) _].
  destruct (slot_address_valid h G j2 ltac:(lia)) as [(B2 & S2 & C2) _].
  pose proof (geo_um h G) as Hum. pose proof (count_half h G) as Hc.
  pose proof (half_pos h G) as Hp.
  assert (Hs1 : 0 <= slot_sub h j1) by (destruct (slot_bucket h j1 =? 0); lia).
  destruct (slot_address_le j1 j2 Hj) as [L|[E L]].
  - assert (Eb : (slot_bucket h j2 =? 0) = false) by (apply Z.eqb_neq; lia).
    rewrite Eb in C2.
    set (s1 := slot_bucket h j1 + unitMagnitude h).
    replace (slot_bucket h j2 + unitMagnitude h)
      with (s1 + (slot_bucket h j2 - slot_bucket h j1)) by (unfold s1; lia).
    rewrite pow2_split by (unfold s1; lia).
    pose proof (pow2_pos s1 ltac:(unfold s1; lia)).
    assert (2 <= 2 ^ (slot_bucket h j2 - slot_bucket h j1)).
    { change 2 with (2 ^ 1) at 1. apply pow2_le. lia. }
    nia.
  - rewrite E.
    pose proof (pow2_pos (slot_bucket h j2 + unitMagnitude h) ltac:(lia)). nia.
Qed.

End FittingSlots.

(** ** Values that no slot takes *)

Section Rejected.

Variable h : Histogram.
Hypothesis G : geometry h.

(** When the shift in [New] overflows, the mask is negative. *)
Lemma mask_overflow : 63 < mask_bits h -> subBucketMask h = - 2 ^ unitMagnitude h.
Proof.
  intros O. pose proof (geo_hm h G) as Hhm. pose proof (geo_um h G) as Hum.
  unfold mask_bits in O. rewrite (geo_mask h G). unfold shl64.
  replace ((0 <=? unitMagnitude h) && (unitMagnitude h <? 64)) with true
    by (symmetry; apply andb_true_iff; split; [apply Z.leb_le|apply Z.ltb_lt]; lia).
  rewrite Z.shiftl_mul_pow2 by lia.
  set (k := unitMagnitude h + subBucketHalfCountMagnitude h + 1 - 64).
  assert (E : (2 ^ (subBucketHalfCountMagnitude h + 1) - 1) * 2 ^ unitMagnitude h
              = - 2 ^ unitMagnitude h + 2 ^ k * 2 ^ 64).
  { rewrite <- pow2_split by (unfold k; lia).
    replace (k + 64) with (subBucketHalfCountMagnitude h + 1 + unitMagnitude h)
      by (unfold k; lia).
    rewrite (pow2_split (subBucketHalfCountMagnitude h + 1) (unitMagnitude h))
      by lia.
    ring. }
  rewrite E. unfold wrap64, wrap.
  replace (- 2 ^ unitMagnitude h + 2 ^ k * 2 ^ 64 + 2 ^ (64 - 1))
    with (2 ^ 63 - 2 ^ unitMagnitude h + 2 ^ k * 2 ^ 64)
    by (change (64 - 1) with 63; lia).
  rewrite Z_mod_plus_full.
  pose proof (pow2_pos (unitMagnitude h) ltac:(lia)).
  pose proof (pow2_le (unitMagnitude h) 62 ltac:(lia)).
  rewrite Z.mod_small by lia. change (64 - 1) with 63. lia.
Qed.

Lemma countsIndexFor_negative (v : Z) :
  in64 v -> v < 0 \/ 63 < mask_bits h -> countsIndexFor h v < 0.
Proof.
  intros Iv C. pose proof (geo_hm h G) as Hhm. pose proof (geo_um h G) as Hum.
  pose proof (half_pos h G) as Hp. pose proof (half_le h G) as Hl.
  assert (N : Z.lor v (subBucketMask h) < 0).
  { apply Z.lor_neg. destruct C as [C|C]; [left; exact C|right].
    rewrite (mask_overflow C). pose proof (pow2_pos (unitMagnitude h) ltac:(lia)).
    lia. }
  unfold countsIndexFor, getBucketIndex. rewrite (bitLen_neg _ N).
  rewrite (wrap32_id (_ + 1)) by (unfold in32; lia).
  rewrite (wrap64_id (0 - _)) by (unfold in64; lia).
  rewrite wrap64_id by (unfold in64; lia).
  rewrite wrap32_id by (unfold in32; lia).
  set (b := 0 - unitMagnitude h - (subBucketHalfCountMagnitude h + 1)).
  unfold getSubBucketIdx.
  rewrite wrap64_id by (unfold in64, b; lia). unfold shr64.
  replace ((0 <=? b + unitMagnitude h) && (b + unitMagnitude h <? 64)) with false
    by (symmetry; apply andb_false_iff; left; apply Z.leb_gt; unfold b; lia).
  assert (S : exists sb, (if v <? 0 then -1 else 0) = sb /\ -1 <= sb <= 0).
  { destruct (v <? 0); eexists; split; try reflexivity; lia. }
  destruct S as (sb & -> & Hsb).
  rewrite (wrap32_id sb) by (unfold in32; lia).
  unfold countsIndex, shl32.
  replace ((0 <=? subBucketHalfCountMagnitude h)
           && (subBucketHalfCountMagnitude h <? 32)) with true
    by (symmetry; apply andb_true_iff; split; [apply Z.leb_le|apply Z.ltb_lt]; lia).
  rewrite (wrap32_id (b + 1)) by (unfold in32, b; lia).
  rewrite Z.shiftl_mul_pow2 by lia. rewrite <- (geo_half h G).
  assert (-80 <= b + 1 <= 0) by (unfold b; lia).
  rewrite (wrap32_id ((b + 1) * _)) by (unfold in32; nia).
  rewrite (wrap32_id (sb - _)) by (unfold in32; lia).
  rewrite wrap32_id by (unfold in32; nia). nia.
Qed.

(** A value with a slot of its own is non-negative, the mask fits, and
    the slot is the one of the value's bucket and sub-bucket. *)
Lemma countsIndexFor_slot (v : Z) :
  in64 v -> 0 <= countsIndexFor h v ->
  0 <= v /\ mask_bits h <= 63
  /\ slot_bucket h (countsIndexFor h v) = value_bucket h v
  /\ slot_sub h (countsIndexFor h v) = v / 2 ^ value_shift h v
  /\ slot_fits h (countsIndexFor h v).
Proof.
  intros Iv Hi.
  assert (Hv : 0 <= v).
  { destruct (Z.lt_ge_cases v 0) as [L|]; [|assumption].
    pose proof (countsIndexFor_negative v Iv (or_introl L)). lia. }
  assert (K : mask_bits h <= 63).
  { destruct (Z.le_gt_cases (mask_bits h) 63) as [|L]; [assumption|].
    pose proof (countsIndexFor_negative v Iv (or_intror L)). lia. }
  assert (Hv2 : 0 <= v < 2 ^ 63) by (unfold in64 in Iv; lia).
  pose proof (value_bucket_bounds h G K v Hv2) as (B1 & B2 & B3).
  pose proof (value_sub_bounds h G K v Hv2) as [[S1 S2] S3].
  assert (V : valid_address h (value_bucket h v) (v / 2 ^ value_shift h v)).
  { unfold valid_address. split; [lia|]. split; [lia|].
    destruct (value_bucket h v =? 0) eqn:E; [lia|].
    apply Z.eqb_neq in E. apply S3. lia. }
  destruct (address_unique h G _ _ _ V (eq_sym (countsIndexFor_value h G K v Hv2)))
    as [Eb Es].
  split; [exact Hv|]. split; [exact K|]. split; [exact Eb|]. split; [exact Es|].
  unfold slot_fits. rewrite Eb. exact B2.
Qed.

End Rejected.

(** * Further properties of the code *)

Lemma in64_small (z : Z) : - 2 ^ 62 <= z <= 2 ^ 62 -> in64 z.
Proof. unfold in64. lia. Qed.

Lemma sample_histogram_New : New 1 1000 1 = Some sample_histogram.
Proof. reflexivity. Qed.

Lemma sample_geometry : geometry sample_histogram.
Proof.
  apply (New_geometry 1 1000 1); [apply in64_small; lia | reflexivity].
Qed.

Lemma sample_recorded_geometry : geometry sample_recorded.
Proof.
  assert (A : store_all geometry [sample_recorded; sample_other])
    by (apply reachable_geometry, reachable_sample_store).
  apply (A 0%nat). reflexivity.
Qed.

Lemma sample_mask_bits : mask_bits sample_histogram <= 63.
Proof. vm_compute. discriminate. Qed.

(** ** [bitLen] *)

(** X1.  On an [int64], [bitLen x] is the length of [x] in bits: 0
    when [x] is zero or negative, and otherwise the [n] with
    [2^(n-1) <= x < 2^n]. *)
Theorem bitLen_bit_length (x : Z) :
  in64 x ->
  (x <= 0 -> bitLen x = 0)
  /\ (0 < x -> 0 < bitLen x /\ 2 ^ (bitLen x - 1) <= x < 2 ^ bitLen x).
Proof.
  intros Ix. unfold in64 in Ix. split.
  - intros Hx. destruct (Z.eq_dec x 0) as [->|]; [reflexivity|].
    apply bitLen_neg. lia.
  - intros Hx. rewrite bitLen_bits by lia.
    split; [|apply bits_spec; exact Hx].
    unfold bits. replace (x <=? 0) with false by (symmetry; apply Z.leb_gt; lia).
    pose proof (Z.log2_nonneg x). lia.
Qed.

Lemma bitLen_bit_length_witness :
  in64 300 /\ bitLen 300 = 9 /\ 2 ^ (bitLen 300 - 1) <= 300 < 2 ^ bitLen 300.
Proof.
  assert (I : in64 300) by (apply in64_small; lia).
  split; [exact I|]. split; [reflexivity|].
  apply (bitLen_bit_length 300 I). lia.
Defined.

(** ** Equivalence classes of values *)

Section Classes.

Variable h : Histogram.
Hypothesis G : geometry h.
Hypothesis K : mask_bits h <= 63.

Lemma bits_mono (v w : Z) : v <= w -> bits v <= bits w.
Proof.
  intros L. unfold bits. destruct (v <=? 0) eqn:Ev.
  - destruct (w <=? 0); [lia|]. pose proof (Z.log2_nonneg w). lia.
  - apply Z.leb_gt in Ev.
    replace (w <=? 0) with false by (symmetry; apply Z.leb_gt; lia).
    pose proof (Z.log2_le_mono v w L). lia.
Qed.

(** A value between the lowest and the highest equivalent value of [v]
    has the bucket and the sub-bucket of [v]. *)
Lemma class_member (v w : Z) :
  0 <= v < 2 ^ 63 ->
  v / 2 ^ value_shift h v * 2 ^ value_shift h v <= w
    < (v / 2 ^ value_shift h v + 1) * 2 ^ value_shift h v ->
  value_bucket h w = value_bucket h v
  /\ w / 2 ^ value_shift h v = v / 2 ^ value_shift h v.
Proof.
  intros Hv Hw.
  pose proof (value_bucket_bounds h G K v Hv) as (B1 & B2 & B3).
  pose proof (value_sub_bounds h G K v Hv) as [[S1 S2] S3].
  pose proof (next_class_bound h G K v Hv) as [N1 N2].
  pose proof (geo_hm h G) as Hhm. pose proof (geo_um h G) as Hum.
  set (s := value_shift h v) in *. set (sb := v / 2 ^ s) in *.
  pose proof (pow2_pos s ltac:(lia)) as Ps.
  assert (Dw : w / 2 ^ s = sb).
  { symmetry. apply (Z.div_unique_pos w (2 ^ s) sb (w - sb * 2 ^ s)); lia. }
  split; [|exact Dw].
  assert (Hw0 : 0 <= w) by nia.
  unfold value_bucket.
  destruct (Z.eq_dec (value_bucket h v) 0) as [E|E].
  - assert (Uw : w < 2 ^ mask_bits h).
    { rewrite (geo_count h G) in S2.
      assert (E1 : 2 ^ (subBucketHalfCountMagnitude h + 1) * 2 ^ s
                   = 2 ^ mask_bits h).
      { rewrite <- pow2_split by lia. f_equal.
        unfold s, value_shift, mask_bits. lia. }
      nia. }
    pose proof (bits_lt_pow2 w (mask_bits h)
                  ltac:(unfold mask_bits; lia) ltac:(lia)).
    unfold value_bucket in E. lia.
  - assert (Bv : bits v = value_bucket h v + mask_bits h)
      by (unfold value_bucket in *; lia).
    specialize (S3 ltac:(lia)). rewrite (geo_half h G) in S3.
    rewrite (geo_count h G) in S2.
    assert (E0 : 2 ^ subBucketHalfCountMagnitude h * 2 ^ s = 2 ^ (bits v - 1)).
    { rewrite <- pow2_split by lia. f_equal.
      unfold s, value_shift, mask_bits in *. lia. }
    assert (E1 : 2 ^ (subBucketHalfCountMagnitude h + 1) * 2 ^ s = 2 ^ bits v).
    { rewrite <- pow2_split by lia. f_equal.
      unfold s, value_shift, mask_bits in *. lia. }
    assert (Hk : 0 < mask_bits h) by (unfold mask_bits; lia).
    rewrite (bits_unique w (bits v)); [unfold value_bucket; lia | lia |].
    split; nia.
Qed.

End Classes.

(** X2.  In a histogram with the geometry of [New] whose mask fits an
    [int64], for non-negative [int64] values [v] and [w]:
    [lowestEquivalentValue v <= v <= highestEquivalentValue v], the
    two bounds are [sizeOfEquivalentValueRange v - 1] apart, and [w]
    is counted in the counter of [v] exactly when it lies between the
    two bounds. *)
Theorem same_counter_iff_equivalent (h : Histogram) (v w : Z) :
  geometry h -> mask_bits h <= 63 ->
  0 <= v < 2 ^ 63 -> 0 <= w < 2 ^ 63 ->
  lowestEquivalentValue h v <= v <= highestEquivalentValue h v
  /\ highestEquivalentValue h v
     = lowestEquivalentValue h v + sizeOfEquivalentValueRange h v - 1
  /\ (countsIndexFor h w = countsIndexFor h v
      <-> lowestEquivalentValue h v <= w <= highestEquivalentValue h v).
Proof.
  intros G K Hv Hw.
  pose proof (value_bucket_bounds h G K v Hv) as (B1 & B2 & B3).
  pose proof (value_sub_bounds h G K v Hv) as [[S1 S2] S3].
  pose proof (value_bucket_bounds h G K w Hw) as (C1 & C2 & C3).
  pose proof (value_sub_bounds h G K w Hw) as [[T1 T2] T3].
  pose proof (next_class_bound h G K v Hv) as [N1 N2].
  rewrite (lowestEquivalentValue_value h G K v Hv),
    (highestEquivalentValue_value h G K v Hv),
    (sizeOfEquivalentValueRange_value h G K v Hv).
  pose proof (pow2_pos (value_shift h v) ltac:(lia)) as Ps.
  pose proof (Z.mul_div_le v _ Ps) as D1.
  split; [lia|]. split; [lia|].
  rewrite (countsIndexFor_value h G K v Hv), (countsIndexFor_value h G K w Hw).
  split.
  - intros E.
    assert (Vv : valid_address h (value_bucket h v) (v / 2 ^ value_shift h v)).
    { unfold valid_address. split; [lia|]. split; [lia|].
      destruct (value_bucket h v =? 0) eqn:Eb; [lia|].
      apply Z.eqb_neq in Eb. apply S3. lia. }
    assert (Vw : valid_address h (value_bucket h w) (w / 2 ^ value_shift h w)).
    { unfold valid_address. split; [lia|]. split; [lia|].
      destruct (value_bucket h w =? 0) eqn:Eb; [lia|].
      apply Z.eqb_neq in Eb. apply T3. lia. }
    destruct (address_unique h G _ _ _ Vv eq_refl) as [A1 A2].
    destruct (address_unique h G _ _ _ Vw E) as [A3 A4].
    assert (Eb : value_bucket h w = value_bucket h v) by congruence.
    assert (Es : value_shift h w = value_shift h v)
      by (unfold value_shift; congruence).
    assert (Ed : w / 2 ^ value_shift h v = v / 2 ^ value_shift h v).
    { rewrite <- Es. congruence. }
    pose proof (Z.mul_div_le w _ Ps) as D2.
    pose proof (Z.mul_succ_div_gt w _ Ps) as D3.
    rewrite Ed in D2, D3. lia.
  - intros R.
    destruct (class_member h G K v w Hv ltac:(lia)) as [Eb Ed].
    assert (Es : value_shift h w = value_shift h v)
      by (unfold value_shift; congruence).
    rewrite Es, Eb, Ed. reflexivity.
Qed.

Lemma same_counter_iff_equivalent_witness :
  geometry sample_histogram /\ mask_bits sample_histogram <= 63
  /\ lowestEquivalentValue sample_histogram 900 = 896
  /\ highestEquivalentValue sample_histogram 900 = 927
  /\ countsIndexFor sample_histogram 905 = countsIndexFor sample_histogram 900.
Proof.
  split; [exact sample_geometry|]. split; [exact sample_mask_bits|].
  split; [reflexivity|]. split; [reflexivity|].
  apply (same_counter_iff_equivalent sample_histogram 900 905
           sample_geometry sample_mask_bits); [lia | lia |].
  vm_compute. split; discriminate.
Defined.

(** X3.  From an address to its value and back: for a bucket [b] and a
    sub-bucket [sb] that the iterator can stand on (any sub-bucket in
    bucket 0, the upper half in the others) and whose value fits an
    [int64], [valueFromIndex b sb] has bucket [b] and sub-bucket [sb],
    is the lowest value of its class, and is counted at
    [countsIndex b sb]. *)
Theorem valueFromIndex_round_trip (h : Histogram) (b sb : Z) :
  geometry h -> valid_address h b sb -> b + mask_bits h <= 63 ->
  let v := valueFromIndex h b sb in
  getBucketIndex h v = b
  /\ getSubBucketIdx h v b = sb
  /\ countsIndexFor h v = countsIndex h b sb
  /\ lowestEquivalentValue h v = v.
Proof.
  intros G V F v.
  assert (K : mask_bits h <= 63) by (destruct V; lia).
  destruct (address_value h G b sb V F) as (E1 & E2 & E3 & E4).
  fold v in E1. rewrite <- E1 in E2, E3, E4.
  assert (Es : value_shift h v = b + unitMagnitude h)
    by (unfold value_shift; rewrite E3; reflexivity).
  assert (Eb : getBucketIndex h v = b)
    by (rewrite (getBucketIndex_value h G K v E2); exact E3).
  assert (Esb : getSubBucketIdx h v b = sb).
  { rewrite <- E3 at 1. rewrite (getSubBucketIdx_value h G K v E2), Es. exact E4. }
  split; [exact Eb|]. split; [exact Esb|]. split.
  - unfold countsIndexFor. rewrite Eb, Esb. reflexivity.
  - unfold lowestEquivalentValue. rewrite Eb, Esb. reflexivity.
Qed.

Lemma valueFromIndex_round_trip_witness :
  geometry sample_histogram /\ valid_address sample_histogram 5 28
  /\ 5 + mask_bits sample_histogram <= 63
  /\ valueFromIndex sample_histogram 5 28 = 896
  /\ countsIndexFor sample_histogram 896 = countsIndex sample_histogram 5 28.
Proof.
  assert (V : valid_address sample_histogram 5 28).
  { vm_compute. repeat split; discriminate. }
  assert (F : 5 + mask_bits sample_histogram <= 63) by (vm_compute; discriminate).
  split; [exact sample_geometry|]. split; [exact V|]. split; [exact F|].
  split; [reflexivity|].
  apply (valueFromIndex_round_trip sample_histogram 5 28 sample_geometry V F).
Defined.

(** X4.  Larger values never go to lower counters: for non-negative
    [int64] values [v <= w], the counts index of [v] is at most the
    one of [w], and so are the lowest and the highest equivalent
    values. *)
Theorem countsIndexFor_monotone (h : Histogram) (v w : Z) :
  geometry h -> mask_bits h <= 63 ->
  0 <= v -> v <= w -> w < 2 ^ 63 ->
  countsIndexFor h v <= countsIndexFor h w
  /\ lowestEquivalentValue h v <= lowestEquivalentValue h w
  /\ highestEquivalentValue h v <= highestEquivalentValue h w.
Proof.
  intros G K Hv0 Hvw Hw63.
  assert (Hv : 0 <= v < 2 ^ 63) by lia. assert (Hw : 0 <= w < 2 ^ 63) by lia.
  pose proof (value_bucket_bounds h G K v Hv) as (B1 & B2 & B3).
  pose proof (value_sub_bounds h G K v Hv) as [[S1 S2] S3].
  pose proof (value_bucket_bounds h G K w Hw) as (C1 & C2 & C3).
  pose proof (value_sub_bounds h G K w Hw) as [[T1 T2] T3].
  pose proof (half_pos h G) as Hp. pose proof (count_half h G) as Hc.
  pose proof (bits_mono v w Hvw) as Bm.
  rewrite (countsIndexFor_value h G K v Hv), (countsIndexFor_value h G K w Hw).
  rewrite (lowestEquivalentValue_value h G K v Hv),
    (lowestEquivalentValue_value h G K w Hw),
    (highestEquivalentValue_value h G K v Hv),
    (highestEquivalentValue_value h G K w Hw).
  assert (Hb : value_bucket h v <= value_bucket h w)
    by (unfold value_bucket; lia).
  pose proof (pow2_pos (value_shift h v) ltac:(lia)) as Ps.
  destruct (Z.eq_dec (value_bucket h v) (value_bucket h w)) as [E|E].
  - assert (Es : value_shift h w = value_shift h v)
      by (unfold value_shift; congruence).
    rewrite Es, E.
    assert (v / 2 ^ value_shift h v <= w / 2 ^ value_shift h v)
      by (apply Z.div_le_mono; lia).
    nia.
  - specialize (T3 ltac:(lia)).
    set (sv := value_shift h v) in *. set (sw := value_shift h w) in *.
    assert (Esw : sw = sv + (value_bucket h w - value_bucket h v))
      by (unfold sw, sv, value_shift; lia).
    assert (P2 : 2 ^ sw = 2 ^ sv * 2 ^ (value_bucket h w - value_bucket h v)).
    { rewrite Esw. apply pow2_split; lia. }
    set (p := 2 ^ (value_bucket h w - value_bucket h v)) in *.
    assert (Hp2 : 2 <= p).
    { unfold p. change 2 with (2 ^ 1) at 1. apply pow2_le. lia. }
    assert (A0 : (value_bucket h v + 1) * subBucketHalfCount h
                 <= value_bucket h w * subBucketHalfCount h)
      by (apply Z.mul_le_mono_nonneg_r; lia).
    assert (A1 : v / 2 ^ sv + 1 <= w / 2 ^ sw * p) by nia.
    assert (A2 : (v / 2 ^ sv + 1) * 2 ^ sv <= w / 2 ^ sw * p * 2 ^ sv)
      by (apply Z.mul_le_mono_nonneg_r; lia).
    assert (A3 : 0 <= 2 ^ sv * p) by (apply Z.mul_nonneg_nonneg; lia).
    set (bw := w / 2 ^ sw) in *.
    split; [lia|]. rewrite P2. split; lia.
Qed.

Lemma countsIndexFor_monotone_witness :
  geometry sample_histogram /\ mask_bits sample_histogram <= 63
  /\ countsIndexFor sample_histogram 31 <= countsIndexFor sample_histogram 900.
Proof.
  split; [exact sample_geometry|]. split; [exact sample_mask_bits|].
  apply (countsIndexFor_monotone sample_histogram 31 900
           sample_geometry sample_mask_bits); lia.
Defined.

(** ** Which values a histogram takes *)

Definition accepts (h : Histogram) (v : Z) : Prop :=
  mask_bits h <= 63
  /\ 0 <= v < subBucketCount h * 2 ^ (unitMagnitude h + bucketCount h - 1).

Lemma countsIndexFor_in_range (h : Histogram) (v : Z) :
  geometry h -> in64 v ->
  0 <= countsIndexFor h v < countsLen h <-> accepts h v.
Proof.
  intros G Iv. pose proof (geo_hm h G) as Hhm. pose proof (geo_um h G) as Hum.
  pose proof (geo_buckets h G) as Hbc.
  pose proof (half_pos h G) as Hp. pose proof (count_half h G) as Hc.
  pose proof (countsLen_half h G) as Hl.
  assert (Eb : subBucketCount h * 2 ^ (unitMagnitude h + bucketCount h - 1)
               = 2 ^ (mask_bits h + bucketCount h - 1)).
  { rewrite (geo_count h G), <- pow2_split by lia. f_equal.
    unfold mask_bits. lia. }
  unfold accepts. rewrite Eb.
  assert (Main : mask_bits h <= 63 -> 0 <= v ->
                 (countsIndexFor h v < countsLen h
                  <-> v < 2 ^ (mask_bits h + bucketCount h - 1))
                 /\ 0 <= countsIndexFor h v).
  { intros K Hv0. assert (Hv : 0 <= v < 2 ^ 63) by (unfold in64 in Iv; lia).
    pose proof (value_bucket_bounds h G K v Hv) as (B1 & B2 & B3).
    pose proof (value_sub_bounds h G K v Hv) as [[S1 S2] S3].
    rewrite (countsIndexFor_value h G K v Hv).
    split; [|nia].
    assert (Hk : 0 < mask_bits h) by (unfold mask_bits; lia).
    split.
    - intros L.
      assert (Bb : value_bucket h v <= bucketCount h - 1).
      { destruct (Z.eq_dec (value_bucket h v) 0) as [E|E]; [lia|].
        specialize (S3 ltac:(lia)). nia. }
      destruct (Z.eq_dec v 0) as [->|Hne].
      { apply pow2_pos. lia. }
      pose proof (bits_spec v ltac:(lia)) as [_ U].
      assert (2 ^ bits v <= 2 ^ (mask_bits h + bucketCount h - 1)).
      { apply pow2_le. pose proof (bits_nonneg v). unfold value_bucket in Bb. lia. }
      lia.
    - intros U.
      pose proof (bits_lt_pow2 v (mask_bits h + bucketCount h - 1)
                    ltac:(lia) ltac:(lia)) as Bv.
      assert (Bb : value_bucket h v <= bucketCount h - 1)
        by (unfold value_bucket; lia).
      nia. }
  split.
  - intros [L U].
    destruct (countsIndexFor_slot h G v Iv L) as (Hv0 & K & _).
    destruct (Main K Hv0) as [M _]. split; [exact K|]. split; [exact Hv0|].
    apply M. exact U.
  - intros (K & Hv0 & U). destruct (Main K Hv0) as [M P].
    split; [exact P | apply M; exact U].
Qed.

(** X5.  [RecordValues v n] on a histogram with the geometry of [New]
    never panics.  It records (returns no error) exactly when the mask
    fits an [int64] and
    [0 <= v < subBucketCount * 2^(unitMagnitude + bucketCount - 1)];
    for every other [int64] value it returns the error and leaves the
    histogram as it was.  In particular negative values are always
    refused, and a histogram whose mask overflowed in [New] refuses
    every value. *)
Theorem RecordValues_accepts_iff (h : Histogram) (v n : Z) :
  geometry h -> in64 v ->
  (accepts h v -> exists h', RecordValues v n h = Some (None, h'))
  /\ (~ accepts h v -> RecordValues v n h = Some (Some (ErrTooLarge v), h)).
Proof.
  intros G Iv. pose proof (countsIndexFor_in_range h v G Iv) as R.
  destruct (RecordValues_cases h v n) as [[Hi E]|[[Hi [Hn E]]|[c [Hi [Hc E]]]]].
  - split; [intros A; apply R in A; lia | intros _; exact E].
  - exfalso. apply lookup_ge_None in Hn. pose proof (geo_counts h G). lia.
  - split; [intros _; eexists; exact E | intros N; exfalso; apply N, R, Hi].
Qed.

Lemma RecordValues_accepts_iff_witness :
  geometry sample_histogram /\ in64 2047 /\ in64 2048 /\ in64 (-1)
  /\ accepts sample_histogram 2047
  /\ (exists h', RecordValues 2047 1 sample_histogram = Some (None, h'))
  /\ RecordValues 2048 1 sample_histogram
     = Some (Some (ErrTooLarge 2048), sample_histogram)
  /\ RecordValues (-1) 1 sample_histogram
     = Some (Some (ErrTooLarge (-1)), sample_histogram).
Proof.
  assert (I1 : in64 2047) by (apply in64_small; lia).
  assert (I2 : in64 2048) by (apply in64_small; lia).
  assert (I3 : in64 (-1)) by (apply in64_small; lia).
  assert (A : accepts sample_histogram 2047).
  { unfold accepts. vm_compute. repeat split; discriminate. }
  split; [exact sample_geometry|]. split; [exact I1|]. split; [exact I2|].
  split; [exact I3|]. split; [exact A|]. split; [|split].
  - apply (RecordValues_accepts_iff sample_histogram 2047 1 sample_geometry I1).
    exact A.
  - apply (RecordValues_accepts_iff sample_histogram 2048 1 sample_geometry I2).
    unfold accepts. vm_compute. intros (_ & _ & C). discriminate C.
  - apply (RecordValues_accepts_iff sample_histogram (-1) 1 sample_geometry I3).
    unfold accepts. vm_compute. intros (_ & C & _). apply C. reflexivity.
Defined.

(** ** Precision *)




(** ** [RecordCorrectedValue] on a value that the histogram takes *)

Lemma RecordValues_accepted (h : Histogram) (v n : Z) :
  geometry h -> in64 v -> accepts h v ->
  exists h', RecordValues v n h = Some (None, h')
             /\ totalCount h' = wrap64 (totalCount h + n)
             /\ same_geometry h h'.
Proof.
  intros G Iv A. apply (countsIndexFor_in_range h v G Iv) in A.
  destruct (RecordValues_cases h v n) as [[Hi E]|[[Hi [Hn E]]|[c [Hi [Hc E]]]]].
  - lia.
  - exfalso. apply lookup_ge_None in Hn. pose proof (geo_counts h G). lia.
  - eexists. split; [exact E|]. split; [reflexivity|].
    apply same_geometry_set_counts, length_insert.
Qed.

Lemma accepts_same_geometry (h h' : Histogram) (v : Z) :
  same_geometry h h' -> accepts h v -> accepts h' v.
Proof.
  intros (_ & _ & E3 & _ & E5 & _ & _ & E8 & E9 & _) A.
  unfold accepts, mask_bits in *. rewrite E3, E5, E8, E9. exact A.
Qed.

Lemma accepts_below (h : Histogram) (v x : Z) :
  accepts h v -> 0 <= x <= v -> accepts h x.
Proof. unfold accepts. intros (K & B) Hx. split; [exact K | lia]. Qed.

Lemma record_each_accepted (vs : list Z) :
  forall h : Histogram,
    geometry h -> in64 (totalCount h) ->
    Forall (fun x => in64 x /\ accepts h x) vs ->
    exists h', record_each vs h = Some (None, h')
               /\ totalCount h' = wrap64 (totalCount h + Z.of_nat (length vs))
               /\ same_geometry h h'.
Proof.
  induction vs as [|x vs IH]; intros h G It F.
  - exists h. split; [reflexivity|]. split; [|apply same_geometry_refl].
    simpl. rewrite Z.add_0_r. symmetry. apply wrap64_id. exact It.
  - inversion F as [|x' vs' [Ix Ax] F']; subst.
    destruct (RecordValues_accepted h x 1 G Ix Ax) as (h1 & E1 & T1 & SG1).
    assert (G1 : geometry h1) by (eapply same_geometry_geometry; eauto).
    assert (F1 : Forall (fun y => in64 y /\ accepts h1 y) vs).
    { eapply Forall_impl; [exact F'|]. intros y [Iy Ay]. split; [exact Iy|].
      eapply accepts_same_geometry; eauto. }
    assert (It1 : in64 (totalCount h1)) by (rewrite T1; apply wrap64_in64).
    destruct (IH h1 G1 It1 F1) as (h' & E' & T' & SG').
    exists h'. split; [|split].
    + simpl. unfold bind. unfold RecordValue. rewrite E1. exact E'.
    + rewrite T', T1, wrap64_add_l. f_equal. simpl length. lia.
    + eapply same_geometry_trans; eauto.
Qed.

Lemma RecordCorrectedValue_described_eq (v ei : Z) (h : Histogram) :
  in64 v -> in64 ei ->
  RecordCorrectedValue v ei h = RecordCorrectedValue_described v ei h.
Proof.
  intros Iv Iei.
  unfold RecordCorrectedValue, RecordCorrectedValue_described, bind.
  destruct (RecordValue v h) as [[[e|] h']|]; try reflexivity.
  destruct (0 <? ei) eqn:C1; destruct (ei <? v) eqn:C2; simpl;
    [apply Z.ltb_lt in C1; apply Z.ltb_lt in C2
    |apply Z.ltb_lt in C1; apply Z.ltb_ge in C2
    |apply Z.ltb_ge in C1|apply Z.ltb_ge in C1].
  - replace (ei <=? 0) with false by (symmetry; apply Z.leb_gt; lia).
    replace (v <=? ei) with false by (symmetry; apply Z.leb_gt; lia). simpl.
    assert (1 <= v / ei) by (apply Z.div_le_lower_bound; lia).
    rewrite wrap64_id by (unfold in64 in *; lia).
    replace (v - ei) with (v - 1 * ei) by lia.
    unfold backfill_values.
    replace (v / ei - 1) with (Z.of_nat (Z.to_nat (v / ei - 1))) by lia.
    apply RecordCorrectedValue_loop_described; try assumption; lia.
  - replace (v <=? ei) with true by (symmetry; apply Z.leb_le; lia).
    rewrite orb_true_r. reflexivity.
  - replace (ei <=? 0) with true by (symmetry; apply Z.leb_le; lia). reflexivity.
  - replace (ei <=? 0) with true by (symmetry; apply Z.leb_le; lia). reflexivity.
Qed.

(** X7.  When the histogram takes [v], [RecordCorrectedValue v
    expectedInterval] cannot fail: every value it adds lies between
    [expectedInterval] and [v].  It leaves the geometry alone and
    raises [totalCount] by [v / expectedInterval] when
    [0 < expectedInterval < v], and by 1 otherwise. *)
Theorem RecordCorrectedValue_accepted (h : Histogram) (v ei : Z) :
  geometry h -> in64 v -> in64 ei -> accepts h v ->
  exists h',
    RecordCorrectedValue v ei h = Some (None, h')
    /\ totalCount h'
       = wrap64 (totalCount h
                 + if (0 <? ei) && (ei <? v) then v / ei else 1)
    /\ same_geometry h h'.
Proof.
  intros G Iv Iei A.
  rewrite (RecordCorrectedValue_described_eq v ei h Iv Iei).
  pose proof (fun P x => proj1 (backfill_values_elem v ei x P)) as B.
  unfold RecordCorrectedValue_described, bind.
  destruct (RecordValues_accepted h v 1 G Iv A) as (h1 & E1 & T1 & SG1).
  unfold RecordValue. rewrite E1.
  destruct ((0 <? ei) && (ei <? v)) eqn:C.
  - apply andb_true_iff in C as [C1 C2].
    apply Z.ltb_lt in C1. apply Z.ltb_lt in C2.
    assert (G1 : geometry h1) by (eapply same_geometry_geometry; eauto).
    assert (It1 : in64 (totalCount h1)) by (rewrite T1; apply wrap64_in64).
    assert (F : Forall (fun x => in64 x /\ accepts h1 x) (backfill_values v ei)).
    { apply Forall_forall. intros x Hx. apply (B C1) in Hx.
      destruct Hx as (k & Hk & -> & Hge).
      assert (0 <= v - k * ei <= v) by nia.
      split; [unfold in64 in *; lia|].
      eapply accepts_same_geometry; [exact SG1|].
      eapply accepts_below; [exact A|assumption]. }
    destruct (record_each_accepted _ h1 G1 It1 F) as (h' & E' & T' & SG').
    exists h'. split; [exact E'|]. split; [|eapply same_geometry_trans; eauto].
    rewrite T', T1, wrap64_add_l. f_equal.
    unfold backfill_values. rewrite length_fmap, length_seqZ.
    assert (1 <= v / ei) by (apply Z.div_le_lower_bound; lia). lia.
  - exists h1. split; [reflexivity|]. split; [exact T1 | exact SG1].
Qed.

Lemma RecordCorrectedValue_accepted_witness :
  geometry sample_histogram /\ in64 100 /\ in64 30
  /\ accepts sample_histogram 100
  /\ (exists h', RecordCorrectedValue 100 30 sample_histogram = Some (None, h')
                  /\ totalCount h' = 3).
Proof.
  assert (I1 : in64 100) by (apply in64_small; lia).
  assert (I2 : in64 30) by (apply in64_small; lia).
  assert (A : accepts sample_histogram 100).
  { unfold accepts. vm_compute. repeat split; discriminate. }
  split; [exact sample_geometry|]. split; [exact I1|]. split; [exact I2|].
  split; [exact A|].
  destruct (RecordCorrectedValue_accepted sample_histogram 100 30
              sample_geometry I1 I2 A) as (h' & E & T & _).
  exists h'. split; [exact E|]. rewrite T. reflexivity.
Defined.

(** ** [Reset] *)

(** What the recording operations and [Reset] make of one histogram. *)
Inductive evolves : Histogram -> Histogram -> Prop :=
| evolves_refl (h : Histogram) : evolves h h
| evolves_RecordValues (h0 h h' : Histogram) (v n : Z) (e : option error) :
    evolves h0 h -> in64 v -> RecordValues v n h = Some (e, h') -> evolves h0 h'
| evolves_RecordCorrectedValue (h0 h h' : Histogram) (v ei : Z) (e : option error) :
    evolves h0 h -> in64 v -> RecordCorrectedValue v ei h = Some (e, h') ->
    evolves h0 h'
| evolves_Reset (h0 h : Histogram) : evolves h0 h -> evolves h0 (Reset h).

Lemma Reset_same_geometry (h : Histogram) : same_geometry h (Reset h).
Proof.
  unfold Reset. apply same_geometry_set_counts. apply length_replicate.
Qed.

Lemma evolves_same_geometry (h0 h : Histogram) :
  evolves h0 h -> same_geometry h0 h.
Proof.
  induction 1 as [h | h0 h h' v n e _ IH Iv R | h0 h h' v ei e _ IH Iv R
                  | h0 h _ IH].
  - apply same_geometry_refl.
  - eapply same_geometry_trans; [exact IH|].
    eapply RecordValues_same_geometry; exact R.
  - refine (RecordCorrectedValue_preserves (same_geometry h0) _ v ei h h' e Iv R IH).
    intros h1 h2 v' n' e' _ R' S. eapply same_geometry_trans; [exact S|].
    eapply RecordValues_same_geometry; exact R'.
  - eapply same_geometry_trans; [exact IH|]. apply Reset_same_geometry.
Qed.

Lemma New_fresh (lo hi s : Z) (h : Histogram) :
  New lo hi s = Some h ->
  totalCount h = 0 /\ counts h = replicate (Z.to_nat (countsLen h)) 0.
Proof.
  unfold New. intros H.
  destruct ((s <? 1) || (5 <? s)); [discriminate|].
  destruct (bucketsNeeded_loop _ _ _ _); [|discriminate].
  destruct (_ <? 0); [discriminate|]. inversion H. subst h.
  split; reflexivity.
Qed.

(** X8.  [Reset] restores the histogram to its original state: if
    [h0] is what [New] returned and [h] is what recordings (failed or
    not) and earlier resets have made of it, then [Reset h] is [h0]
    again, field by field. *)
Theorem Reset_restores_New (lo hi s : Z) (h0 h : Histogram) :
  New lo hi s = Some h0 -> evolves h0 h -> Reset h = h0.
Proof.
  intros HN Ev. destruct (New_fresh lo hi s h0 HN) as [T0 C0].
  destruct (evolves_same_geometry h0 h Ev)
    as (E1 & E2 & E3 & E4 & E5 & E6 & E7 & E8 & E9 & E10 & E11).
  unfold Reset, set_counts. destruct h0; simpl in *. subst.
  rewrite E11, length_replicate. reflexivity.
Qed.

Lemma evolves_sample_recorded : evolves sample_histogram sample_recorded.
Proof.
  apply (evolves_RecordValues sample_histogram sample_recorded_once
           sample_recorded 900 2 None);
    [|apply in64_small; lia|vm_compute; reflexivity].
  apply (evolves_RecordValues sample_histogram sample_histogram
           sample_recorded_once 5 1 None);
    [apply evolves_refl|apply in64_small; lia|vm_compute; reflexivity].
Defined.

Lemma Reset_restores_New_witness :
  New 1 1000 1 = Some sample_histogram
  /\ evolves sample_histogram sample_recorded
  /\ Reset sample_recorded = sample_histogram.
Proof.
  split; [reflexivity|]. split; [exact evolves_sample_recorded|].
  exact (Reset_restores_New 1 1000 1 sample_histogram sample_recorded
           eq_refl evolves_sample_recorded).
Defined.

(** ** The loop of [New] that counts the buckets *)

Section Buckets.

Variable hm : Z.
Hypothesis Hhm : 0 <= hm <= 17.
Variable hi : Z.

(** The first tracked value: [subBucketCount - 1]. *)
Definition first_tracked : Z := 2 ^ (hm + 1) - 1.

Lemma first_tracked_bounds (i : Z) :
  0 <= i -> 2 ^ (hm + i) <= first_tracked * 2 ^ i < 2 ^ (hm + 1 + i).
Proof.
  intros Hi. unfold first_tracked.
  rewrite !pow2_split by lia. change (2 ^ 1) with 2.
  pose proof (pow2_pos hm ltac:(lia)). pose proof (pow2_pos i Hi). nia.
Qed.

Lemma shl64_1 (x : Z) : shl64 x 1 = wrap64 (x * 2).
Proof.
  unfold shl64. change ((0 <=? 1) && (1 <? 64)) with true. cbv iota.
  rewrite Z.shiftl_mul_pow2 by lia. reflexivity.
Qed.

Lemma shl64_tracked (i : Z) :
  0 <= i -> i + hm <= 61 ->
  shl64 (first_tracked * 2 ^ i) 1 = first_tracked * 2 ^ (i + 1).
Proof.
  intros Hi Hb. rewrite shl64_1. change 2 with (2 ^ 1) at 2.
  rewrite <- Z.mul_assoc, <- pow2_split by lia.
  apply wrap64_id. unfold in64.
  pose proof (first_tracked_bounds (i + 1) ltac:(lia)).
  pose proof (pow2_le (hm + 1 + (i + 1)) 63 ltac:(lia)).
  pose proof (pow2_pos (hm + (i + 1)) ltac:(lia)). lia.
Qed.

Lemma wrap64_neg_pow2 (a m : Z) :
  0 <= m <= 63 -> 0 <= a -> wrap64 (a * 2 ^ 64 - 2 ^ m) = - 2 ^ m.
Proof.
  intros Hm Ha. unfold wrap64, wrap. change (64 - 1) with 63.
  replace (a * 2 ^ 64 - 2 ^ m + 2 ^ 63) with (2 ^ 63 - 2 ^ m + a * 2 ^ 64) by lia.
  rewrite Z_mod_plus_full.
  pose proof (pow2_pos m ltac:(lia)). pose proof (pow2_le m 63 ltac:(lia)).
  rewrite Z.mod_small by lia. lia.
Qed.

(** The doubling that overflows: the tracked value turns negative. *)
Lemma shl64_tracked_overflow :
  shl64 (first_tracked * 2 ^ (62 - hm)) 1 = - 2 ^ (63 - hm).
Proof.
  rewrite shl64_1. change 2 with (2 ^ 1) at 2.
  rewrite <- Z.mul_assoc, <- pow2_split by lia.
  replace (62 - hm + 1) with (63 - hm) by lia.
  unfold first_tracked.
  replace ((2 ^ (hm + 1) - 1) * 2 ^ (63 - hm))
    with (1 * 2 ^ 64 - 2 ^ (63 - hm)).
  - apply wrap64_neg_pow2; lia.
  - rewrite Z.mul_sub_distr_r, <- pow2_split by lia.
    replace (hm + 1 + (63 - hm)) with 64 by lia. lia.
Qed.

(** Once negative or zero, the tracked value stays so. *)
Definition sunk (t : Z) : Prop := t = 0 \/ exists m, 0 <= m <= 63 /\ t = - 2 ^ m.

Lemma sunk_shl64 (t : Z) : sunk t -> sunk (shl64 t 1).
Proof.
  intros [->|(m & Hm & ->)].
  - left. reflexivity.
  - rewrite shl64_1.
    destruct (Z.eq_dec m 63) as [->|Hne].
    + left. reflexivity.
    + right. exists (m + 1). split; [lia|].
      rewrite wrap64_id.
      * rewrite pow2_split by lia. change (2 ^ 1) with 2. lia.
      * unfold in64. pose proof (pow2_pos m ltac:(lia)).
        pose proof (pow2_le (m + 1) 63 ltac:(lia)).
        rewrite pow2_split in * by lia. change (2 ^ 1) with 2 in *. lia.
Qed.

Lemma sunk_nonpos (t : Z) : sunk t -> t <= 0.
Proof.
  intros [->|(m & Hm & ->)]; [lia|]. pose proof (pow2_pos m ltac:(lia)). lia.
Qed.

Lemma bucketsNeeded_loop_sunk (fuel : nat) :
  forall (t n : Z), 0 < hi -> sunk t -> bucketsNeeded_loop fuel hi t n = None.
Proof.
  induction fuel as [|fuel IH]; intros t n Hhi St; [reflexivity|].
  rewrite bucketsNeeded_loop_S.
  pose proof (sunk_nonpos t St).
  replace (t <? hi) with true by (symmetry; apply Z.ltb_lt; lia).
  apply IH; [exact Hhi | apply sunk_shl64; exact St].
Qed.

(** From the tracked value [first_tracked * 2^i] with [n = i + 1]. *)
Lemma bucketsNeeded_loop_diverges (fuel : nat) :
  forall i : Z,
    0 <= i -> i + hm <= 62 -> first_tracked * 2 ^ (62 - hm) < hi ->
    bucketsNeeded_loop fuel hi (first_tracked * 2 ^ i) (i + 1) = None.
Proof.
  induction fuel as [|fuel IH]; intros i Hi Hb Hbig; [reflexivity|].
  rewrite bucketsNeeded_loop_S.
  assert (Hle : first_tracked * 2 ^ i <= first_tracked * 2 ^ (62 - hm)).
  { apply Z.mul_le_mono_nonneg_l; [|apply pow2_le; lia].
    unfold first_tracked. pose proof (pow2_pos (hm + 1) ltac:(lia)). lia. }
  replace (first_tracked * 2 ^ i <? hi) with true
    by (symmetry; apply Z.ltb_lt; lia).
  rewrite (wrap32_id (i + 1 + 1)) by (unfold in32; lia).
  destruct (Z.eq_dec (i + hm) 62) as [E|E].
  - replace i with (62 - hm) by lia. rewrite shl64_tracked_overflow.
    apply bucketsNeeded_loop_sunk.
    + pose proof (first_tracked_bounds (62 - hm) ltac:(lia)).
      pose proof (pow2_pos (hm + (62 - hm)) ltac:(lia)). lia.
    + right. exists (63 - hm). split; [lia | reflexivity].
  - rewrite shl64_tracked by lia. apply IH; lia.
Qed.


End Buckets.

(** ** What [New] returns *)

Lemma log2_in64 (lo : Z) : in64 lo -> 0 <= Z.log2 lo <= 62.
Proof.
  intros Ilo. pose proof (Z.log2_nonneg lo).
  destruct (Z.le_gt_cases lo 0) as [L|L].
  - rewrite Z.log2_nonpos by lia. lia.
  - assert (Z.log2 lo < 63) by (apply Z.log2_lt_pow2; unfold in64 in Ilo; lia).
    lia.
Qed.

(** [New] with its arithmetic carried out. *)
Lemma New_unfolded (lo hi s : Z) :
  in64 lo -> 1 <= s <= 5 ->
  New lo hi s =
    match bucketsNeeded_loop 65 hi (2 ^ (magnitude_of s + 1) - 1) 1 with
    | None => None
    | Some bc =>
        Some {| lowestTrackableValue := lo;
                highestTrackableValue := hi;
                unitMagnitude := Z.log2 lo;
                significantFigures := s;
                subBucketHalfCountMagnitude := magnitude_of s;
                subBucketHalfCount := 2 ^ magnitude_of s;
                subBucketMask := shl64 (2 ^ (magnitude_of s + 1) - 1) (Z.log2 lo);
                subBucketCount := 2 ^ (magnitude_of s + 1);
                bucketCount := bc;
                countsLen := (bc + 1) * 2 ^ magnitude_of s;
                totalCount := 0;
                counts := replicate (Z.to_nat ((bc + 1) * 2 ^ magnitude_of s)) 0 |}
    end.
Proof.
  intros Ilo Hs. unfold New.
  replace ((s <? 1) || (5 <? s)) with false
    by (symmetry; apply orb_false_iff; split; apply Z.ltb_ge; lia).
  pose proof (log2_in64 lo Ilo) as Bum.
  destruct (New_magnitude s Hs) as (M1 & M2 & M3 & M4 & M5).
  cbv zeta in M1 |- *. rewrite M1.
  rewrite (wrap32_id (Z.log2 lo)) by (unfold in32; lia).
  replace (Z.log2 lo <? 0) with false by (symmetry; apply Z.ltb_ge; lia).
  rewrite M2, M3, M4.
  destruct (bucketsNeeded_loop 65 hi (2 ^ (magnitude_of s + 1) - 1) 1)
    as [bc|] eqn:Eb; [|reflexivity].
  pose proof (bucketsNeeded_loop_bound 65 hi _ 1 bc ltac:(lia) ltac:(lia) Eb) as Hb.
  assert (P : 0 < 2 ^ magnitude_of s <= 2 ^ 17).
  { split; [apply Z.pow_pos_nonneg; lia | apply Z.pow_le_mono_r; lia]. }
  rewrite (wrap32_id (bc + 1)) by (unfold in32; lia).
  rewrite (wrap32_id ((bc + 1) * _)) by (unfold in32; nia).
  replace ((bc + 1) * 2 ^ magnitude_of s <? 0) with false
    by (symmetry; apply Z.ltb_ge; nia).
  reflexivity.
Qed.

(** The largest [maxValue] for which the loop of [New] ends. *)
Definition largest_maxValue (s : Z) : Z :=
  (2 ^ (magnitude_of s + 1) - 1) * 2 ^ (62 - magnitude_of s).



(** X10.  For [sigfigs] in [[1,5]] and [maxValue] above
    [(subBucketCount - 1) * 2^(62 - subBucketHalfCountMagnitude)]
    (for instance [maxValue = 2^63 - 1]) [New] never returns: the
    tracked value overflows to a negative number when it is doubled,
    later to 0, and stays below [maxValue]; the loop has no end
    whatever fuel it is given. *)
Theorem New_never_returns (lo hi s : Z) :
  in64 lo -> 1 <= s <= 5 -> largest_maxValue s < hi ->
  New lo hi s = None
  /\ forall fuel : nat,
       bucketsNeeded_loop fuel hi (2 ^ (magnitude_of s + 1) - 1) 1 = None.
Proof.
  intros Ilo Hs Hbig.
  destruct (New_magnitude s Hs) as (_ & _ & _ & _ & M5).
  assert (D : forall fuel : nat,
            bucketsNeeded_loop fuel hi (2 ^ (magnitude_of s + 1) - 1) 1 = None).
  { intros fuel.
    pose proof (bucketsNeeded_loop_diverges (magnitude_of s) M5 hi fuel 0
                  ltac:(lia) ltac:(lia) Hbig) as D.
    unfold first_tracked in D. rewrite Z.mul_1_r in D. exact D. }
  split; [|exact D].
  rewrite (New_unfolded lo hi s Ilo Hs), D. reflexivity.
Qed.

Lemma New_never_returns_witness :
  in64 1 /\ 1 <= 3 <= 5 /\ largest_maxValue 3 < 2 ^ 63 - 1
  /\ New 1 (2 ^ 63 - 1) 3 = None.
Proof.
  assert (I : in64 1) by (apply in64_small; lia).
  assert (B : largest_maxValue 3 < 2 ^ 63 - 1) by (vm_compute; reflexivity).
  split; [exact I|]. split; [lia|]. split; [exact B|].
  apply (New_never_returns 1 (2 ^ 63 - 1) 3 I ltac:(lia) B).
Defined.

(** ** The declared range *)



(** ** Statistics of a histogram without recordings *)

Lemma iterator_next_done (h : Histogram) (i : iterator) :
  totalCount h <= countToIdx i -> iterator_next h i = Some (false, i).
Proof.
  intros L. unfold iterator_next.
  replace (totalCount h <=? countToIdx i) with true
    by (symmetry; apply Z.leb_le; exact L).
  reflexivity.
Qed.

Lemma lowestEquivalentValue_0 (h : Histogram) : lowestEquivalentValue h 0 = 0.
Proof.
  unfold lowestEquivalentValue, getSubBucketIdx, valueFromIndex.
  assert (E : forall s, shr64 0 s = 0).
  { intros s. unfold shr64. destruct (_ && _); [apply Z.shiftr_0_l|reflexivity]. }
  rewrite E. change (wrap32 0) with 0.
  unfold shl64. destruct (_ && _); [|reflexivity].
  rewrite Z.shiftl_0_l. reflexivity.
Qed.

Lemma Min_loop_S (fuel : nat) (h : Histogram) (min : Z) (i : iterator) :
  Min_loop (S fuel) h min i
  = match iterator_next h i with
    | Some (true, i') =>
        if negb (countAtIdx i' =? 0) && (min =? 0)
        then Some (i_highestEquivalentValue i', i')
        else Min_loop fuel h min i'
    | Some (false, i') => Some (min, i')
    | None => None
    end.
Proof.
  simpl. unfold bind. destruct (iterator_next h i) as [[[|] i']|]; reflexivity.
Qed.

Lemma Max_loop_S (fuel : nat) (h : Histogram) (max : Z) (i : iterator) :
  Max_loop (S fuel) h max i
  = match iterator_next h i with
    | Some (true, i') =>
        Max_loop fuel h
          (if countAtIdx i' =? 0 then max else i_highestEquivalentValue i') i'
    | Some (false, i') => Some (max, i')
    | None => None
    end.
Proof.
  simpl. unfold bind. destruct (iterator_next h i) as [[[|] i']|]; reflexivity.
Qed.

Lemma ValueAtQuantile_loop_S (fuel : nat) (h : Histogram) (cap total : Z)
    (i : iterator) :
  ValueAtQuantile_loop (S fuel) h cap total i
  = match iterator_next h i with
    | Some (true, i') =>
        if cap <=? wrap64 (total + countAtIdx i')
        then Some (highestEquivalentValue h (valueFromIdx i'), i')
        else ValueAtQuantile_loop fuel h cap (wrap64 (total + countAtIdx i')) i'
    | Some (false, i') => Some (0, i')
    | None => None
    end.
Proof.
  simpl. unfold bind. destruct (iterator_next h i) as [[[|] i']|]; reflexivity.
Qed.

(** X12.  A histogram whose [totalCount] is 0 (fresh, or after
    [Reset]) or negative has no statistics: [Min] and [Max] return 0,
    and [ValueAtQuantile q] returns 0 for every [q], none of them
    looking at a counter. *)
Theorem statistics_of_empty (h : Histogram) (q : float) :
  totalCount h <= 0 ->
  Min h = Some 0 /\ Max h = Some 0 /\ ValueAtQuantile h q = Some 0.
Proof.
  intros E.
  assert (D : iterator_next h new_iterator = Some (false, new_iterator))
    by (apply iterator_next_done; exact E).
  unfold Min, Max, ValueAtQuantile, walk_fuel.
  rewrite Min_loop_S, Max_loop_S, ValueAtQuantile_loop_S, D.
  rewrite lowestEquivalentValue_0. auto.
Qed.

Lemma statistics_of_empty_witness :
  totalCount sample_histogram <= 0
  /\ Min sample_histogram = Some 0 /\ Max sample_histogram = Some 0
  /\ ValueAtQuantile sample_histogram 50 = Some 0.
Proof.
  assert (E : totalCount sample_histogram <= 0) by (vm_compute; discriminate).
  split; [exact E|]. exact (statistics_of_empty sample_histogram 50 E).
Defined.

Lemma Mean_loop_S (fuel : nat) (h : Histogram) (total : Z) (i : iterator) :
  Mean_loop (S fuel) h total i
  = match iterator_next h i with
    | Some (more, i') =>
        (if more : bool then
           fun i =>
             Mean_loop fuel h
               (if countAtIdx i =? 0 then total
                else wrap64 (total
                             + wrap64 (countAtIdx i
                                       * medianEquivalentValue h (valueFromIdx i))))
               i
         else ret total) i'
    | None => None
    end.
Proof. reflexivity. Qed.

Lemma StdDev_loop_S (fuel : nat) (h : Histogram) (mean g : float) (i : iterator) :
  StdDev_loop (S fuel) h mean g i
  = match iterator_next h i with
    | Some (more, i') =>
        (if more : bool then
           fun i =>
             StdDev_loop fuel h mean
               (if countAtIdx i =? 0 then g
                else
                  let dev :=
                    PrimFloat.sub
                      (F64.of_int64 (medianEquivalentValue h (valueFromIdx i)))
                      mean in
                  PrimFloat.add g
                    (PrimFloat.mul (PrimFloat.mul dev dev)
                       (F64.of_int64 (countAtIdx i))))
               i
         else ret g) i'
    | None => None
    end.
Proof. reflexivity. Qed.

(** X13.  [Mean] and [StdDev] of a histogram with [totalCount = 0]
    divide zero by zero: both return NaN. *)
Theorem Mean_StdDev_of_empty (h : Histogram) :
  totalCount h = 0 ->
  Mean h = Some PrimFloat.nan /\ StdDev h = Some PrimFloat.nan.
Proof.
  intros E.
  assert (D : iterator_next h new_iterator = Some (false, new_iterator))
    by (apply iterator_next_done; rewrite E; apply Z.le_refl).
  assert (EM : Mean h = Some PrimFloat.nan).
  { unfold Mean, walk_fuel. rewrite Mean_loop_S, D. cbv beta iota. unfold ret.
    rewrite E. vm_compute. reflexivity. }
  split; [exact EM|].
  unfold StdDev. rewrite EM. unfold walk_fuel. rewrite StdDev_loop_S, D.
  cbv beta iota. unfold ret. rewrite E. vm_compute. reflexivity.
Qed.

Lemma Mean_StdDev_of_empty_witness :
  totalCount sample_histogram = 0
  /\ Mean sample_histogram = Some PrimFloat.nan
  /\ StdDev sample_histogram = Some PrimFloat.nan.
Proof.
  split; [reflexivity|]. exact (Mean_StdDev_of_empty sample_histogram eq_refl).
Defined.

(** X14.  [ByteSize] depends on the geometry only: for a histogram
    built by [New] it is 68 bytes plus 8 bytes for each of the
    [countsLen] counters, and recordings and [Reset] do not change
    it. *)
Theorem ByteSize_constant (lo hi s : Z) (h0 h : Histogram) :
  in64 lo -> New lo hi s = Some h0 -> evolves h0 h ->
  ByteSize h = 68 + 8 * countsLen h0 /\ ByteSize h = ByteSize h0.
Proof.
  intros Ilo HN Ev.
  pose proof (New_geometry lo hi s h0 Ilo HN) as G.
  destruct (evolves_same_geometry h0 h Ev)
    as (_ & _ & _ & _ & _ & _ & _ & _ & _ & _ & EL).
  unfold ByteSize. rewrite EL, (geo_counts h0 G).
  pose proof (geo_len h0 G) as L. pose proof (geo_buckets h0 G).
  pose proof (geo_hm h0 G).
  pose proof (pow2_pos (subBucketHalfCountMagnitude h0) ltac:(lia)).
  rewrite Z2Nat.id by nia. lia.
Qed.

Lemma ByteSize_constant_witness :
  in64 1 /\ New 1 1000 1 = Some sample_histogram
  /\ evolves sample_histogram sample_recorded
  /\ ByteSize sample_recorded = 68 + 8 * 128.
Proof.
  assert (I : in64 1) by (apply in64_small; lia).
  split; [exact I|]. split; [reflexivity|]. split; [exact evolves_sample_recorded|].
  apply (ByteSize_constant 1 1000 1 sample_histogram sample_recorded I eq_refl
           evolves_sample_recorded).
Defined.

(** ** [Merge] returns *)

Lemma at_slot_same_geometry (h h' : Histogram) (i : iterator) (j : Z) :
  same_geometry h h' -> at_slot h i j -> at_slot h' i j.
Proof.
  intros (_ & _ & _ & _ & _ & E6 & _ & E8 & _ & E10 & _) A.
  unfold at_slot in *. rewrite E6, E8, E10. exact A.
Qed.

Lemma rIterator_next_loop_total (h : Histogram) (k : nat) :
  geometry h ->
  forall (fuel : nat) (r : rIterator) (j : Z),
    at_slot h (r_iterator r) j ->
    countsLen h - 1 - j <= Z.of_nat k -> (k < fuel)%nat ->
    exists (more : bool) (r' : rIterator),
      rIterator_next_loop fuel h r = Some (more, r')
      /\ (more = true -> exists j', j < j' /\ at_slot h (r_iterator r') j').
Proof.
  intros G. induction k as [|k IH]; intros fuel r j A Hk Hf;
    (destruct fuel as [|fuel]; [lia|]); simpl rIterator_next_loop;
    destruct (iterator_next_cases h G (r_iterator r) j A)
      as [[_ E]|[(_ & _ & i' & E)|(_ & Hlt & i' & E & O)]]; rewrite E.
  - eexists false, _. split; [reflexivity|discriminate].
  - eexists false, _. split; [reflexivity|discriminate].
  - exfalso. destruct A as (_ & _ & _ & _ & A). lia.
  - eexists false, _. split; [reflexivity|discriminate].
  - eexists false, _. split; [reflexivity|discriminate].
  - destruct O as (A' & _).
    destruct (negb (countAtIdx i' =? 0)).
    + eexists true, _. split; [reflexivity|]. intros _.
      exists (j + 1). split; [lia|exact A'].
    + destruct (IH fuel {| r_iterator := i';
                           countAddedThisStep := countAddedThisStep r |}
                  (j + 1) A' ltac:(lia) ltac:(lia)) as (more & r' & E' & P).
      exists more, r'. split; [exact E'|].
      intros T. destruct (P T) as (j' & Hj' & A''). exists j'. split; [lia|exact A''].
Qed.

Lemma RecordValues_returns (h : Histogram) (v n : Z) :
  geometry h ->
  exists e h', RecordValues v n h = Some (e, h') /\ same_geometry h h'.
Proof.
  intros G.
  destruct (RecordValues_cases h v n) as [[Hi E]|[[Hi [Hn E]]|[c [Hi [Hc E]]]]].
  - eexists _, _. split; [exact E | apply same_geometry_refl].
  - exfalso. apply lookup_ge_None in Hn. pose proof (geo_counts h G). lia.
  - eexists _, _. split; [exact E|].
    apply same_geometry_set_counts, length_insert.
Qed.

Section MergeReturns.

Variables (a b : nat) (ha0 hb0 : Histogram).
Hypothesis Ga : geometry ha0.
Hypothesis Gb : geometry hb0.

(** The two histograms are in the store, with the geometry they had
    when [Merge] was called. *)
Definition merge_store (st : list Histogram) : Prop :=
  exists ha hb, st !! a = Some ha /\ st !! b = Some hb
                /\ same_geometry ha0 ha /\ same_geometry hb0 hb.

Lemma Merge_loop_total (k : nat) :
  forall (fuel : nat) (i : rIterator) (j d : Z) (st : list Histogram),
    merge_store st -> at_slot hb0 (r_iterator i) j ->
    countsLen hb0 - 1 - j <= Z.of_nat k -> (k < fuel)%nat ->
    exists d' st',
      Merge_loop fuel a b i d st = Some (d', st')
      /\ length st' = length st /\ merge_store st'.
Proof.
  induction k as [|k IH]; intros fuel i j d st S A Hk Hf;
    (destruct fuel as [|fuel]; [lia|]); simpl Merge_loop;
    destruct S as (ha & hb & Ea & Eb & Sa & Sb); rewrite Eb;
    pose proof (same_geometry_geometry hb0 hb Sb Gb) as Gb';
    pose proof (at_slot_same_geometry hb0 hb _ _ Sb A) as A';
    assert (Ecl : countsLen hb = countsLen hb0)
      by (destruct Sb as (_ & _ & _ & _ & _ & _ & _ & _ & _ & E & _); exact E);
    destruct (rIterator_next_loop_total hb (Z.to_nat (countsLen hb)) Gb'
                (walk_fuel hb) i j A'
                ltac:(destruct A' as (_ & _ & _ & _ & A'); lia)
                ltac:(unfold walk_fuel; lia))
      as (more & i' & En & P);
    unfold rIterator_next; rewrite En; destruct more.
  - exfalso. destruct (P eq_refl) as (j' & Hj' & (_ & _ & _ & _ & A'')). lia.
  - exists d, st. split; [reflexivity|]. split; [reflexivity|].
    exists ha, hb. auto.
  - destruct (P eq_refl) as (j' & Hj' & A'').
    rewrite Ea.
    pose proof (same_geometry_geometry ha0 ha Sa Ga) as Ga'.
    destruct (RecordValues_returns ha (valueFromIdx (r_iterator i'))
                (countAtIdx (r_iterator i')) Ga') as (e & ha' & Er & Sr).
    rewrite Er.
    assert (La : (a < length st)%nat) by (apply lookup_lt_is_Some; eauto).
    assert (S' : merge_store (<[a := ha']> st)).
    { exists ha'. destruct (decide (a = b)) as [Eab|Nab].
      - exists ha'. rewrite <- Eab.
        rewrite list_lookup_insert_eq by exact La.
        split; [reflexivity|]. split; [reflexivity|].
        split; [eapply same_geometry_trans; eauto|].
        assert (ha = hb) by (rewrite Eab in Ea; congruence). subst hb.
        eapply same_geometry_trans; eauto.
      - exists hb. rewrite list_lookup_insert_eq by exact La.
        rewrite list_lookup_insert_ne by exact Nab.
        split; [reflexivity|]. split; [exact Eb|].
        split; [eapply same_geometry_trans; eauto | exact Sb]. }
    assert (A3 : at_slot hb0 (r_iterator i') j').
    { apply (at_slot_same_geometry hb hb0); [|exact A''].
      destruct Sb as (E1 & E2 & E3 & E4 & E5 & E6 & E7 & E8 & E9 & E10 & E11).
      unfold same_geometry. repeat split; congruence. }
    destruct (IH fuel i' j'
                (if e is Some _ then wrap64 (d + countAtIdx (r_iterator i'))
                 else d)
                (<[a := ha']> st) S' A3 ltac:(lia) ltac:(lia))
      as (d' & st' & E' & L' & M').
    exists d', st'. split; [exact E'|]. split; [|exact M'].
    rewrite L'. apply length_insert.
  - exists d, st. split; [reflexivity|]. split; [reflexivity|].
    exists ha, hb. auto.
Qed.

End MergeReturns.

(** X15.  [a.Merge(b)] on two histograms with the geometry of [New]
    (which may be one and the same histogram) always returns: it never
    panics and its loops end.  It changes nothing but [a]: every other
    histogram of the store is as before, and [a] keeps its geometry. *)
Theorem Merge_returns (a b : nat) (st : list Histogram) (ha hb : Histogram) :
  st !! a = Some ha -> st !! b = Some hb -> geometry ha -> geometry hb ->
  exists d st',
    Merge a b st = Some (d, st')
    /\ length st' = length st
    /\ (forall q : nat, q <> a -> st' !! q = st !! q)
    /\ exists ha', st' !! a = Some ha' /\ same_geometry ha ha'.
Proof.
  intros Ea Eb Ga Gb.
  assert (S : merge_store a b ha hb st).
  { exists ha, hb. repeat split; auto; apply same_geometry_refl. }
  pose proof (geo_buckets hb Gb) as Hbc. pose proof (countsLen_half hb Gb) as Hl.
  pose proof (half_pos hb Gb) as Hp.
  destruct (Merge_loop_total a b ha hb Ga Gb (Z.to_nat (countsLen hb))
              (walk_fuel hb) new_rIterator (-1) 0 st S (at_slot_start hb Gb)
              ltac:(nia) ltac:(unfold walk_fuel; lia))
    as (d & st' & E & L & (ha' & _ & Ea' & _ & Sa & _)).
  exists d, st'. unfold Merge. rewrite Eb. split; [exact E|]. split; [exact L|].
  split.
  - intros q Hq. exact (Merge_loop_frame _ _ _ _ _ _ _ _ q Hq E).
  - exists ha'. auto.
Qed.

Lemma Merge_returns_witness :
  [sample_recorded; sample_other] !! 0%nat = Some sample_recorded
  /\ [sample_recorded; sample_other] !! 1%nat = Some sample_other
  /\ geometry sample_recorded /\ geometry sample_other
  /\ (exists d st', Merge 0 1 [sample_recorded; sample_other] = Some (d, st')
                    /\ length st' = 2%nat)
  /\ (exists d st', Merge 0 0 [sample_recorded; sample_other] = Some (d, st')
                    /\ length st' = 2%nat).
Proof.
  assert (A : store_all geometry [sample_recorded; sample_other])
    by (apply reachable_geometry, reachable_sample_store).
  assert (G0 : geometry sample_recorded) by (apply (A 0%nat); reflexivity).
  assert (G1 : geometry sample_other) by (apply (A 1%nat); reflexivity).
  split; [reflexivity|]. split; [reflexivity|]. split; [exact G0|].
  split; [exact G1|]. split.
  - destruct (Merge_returns 0 1 [sample_recorded; sample_other]
                sample_recorded sample_other eq_refl eq_refl G0 G1)
      as (d & st' & E & L & _).
    exists d, st'. split; [exact E | exact L].
  - destruct (Merge_returns 0 0 [sample_recorded; sample_other]
                sample_recorded sample_recorded eq_refl eq_refl G0 G0)
      as (d & st' & E & L & _).
    exists d, st'. split; [exact E | exact L].
Defined.

(** ** The statistics return *)

Section StatisticsReturn.

Variable h : Histogram.
Hypothesis G : geometry h.

(** One step of a loop over the iterator: it stops, or it stands on
    the next slot. *)
Lemma iterator_next_step (i : iterator) (j : Z) :
  at_slot h i j ->
  (exists i', iterator_next h i = Some (false, i'))
  \/ (exists i', iterator_next h i = Some (true, i')
                 /\ at_slot h i' (j + 1) /\ j + 1 < countsLen h).
Proof.
  intros A.
  destruct (iterator_next_cases h G i j A)
    as [[_ E]|[(_ & _ & i' & E)|(_ & Hlt & i' & E & O)]].
  - left. eauto.
  - left. eauto.
  - right. exists i'. destruct O as (A' & _). auto.
Qed.

Ltac walk_total IH E :=
  match goal with
  | A : at_slot h ?i ?j |- _ =>
      destruct (iterator_next_step i j A) as [(i' & E)|(i' & E & A' & Hlt)];
      rewrite E; [eexists _, _; reflexivity|]
  end.

Lemma Min_loop_total (k : nat) :
  forall (fuel : nat) (min : Z) (i : iterator) (j : Z),
    at_slot h i j -> countsLen h - 1 - j <= Z.of_nat k -> (k < fuel)%nat ->
    exists r i', Min_loop fuel h min i = Some (r, i').
Proof.
  induction k as [|k IH]; intros fuel min i j A Hk Hf;
    (destruct fuel as [|fuel]; [lia|]); rewrite Min_loop_S;
    walk_total IH E; [lia|].
  destruct (negb (countAtIdx i' =? 0) && (min =? 0));
    [eexists _, _; reflexivity|].
  apply (IH fuel min i' (j + 1) A'); lia.
Qed.

Lemma Max_loop_total (k : nat) :
  forall (fuel : nat) (max : Z) (i : iterator) (j : Z),
    at_slot h i j -> countsLen h - 1 - j <= Z.of_nat k -> (k < fuel)%nat ->
    exists r i', Max_loop fuel h max i = Some (r, i').
Proof.
  induction k as [|k IH]; intros fuel max i j A Hk Hf;
    (destruct fuel as [|fuel]; [lia|]); rewrite Max_loop_S;
    walk_total IH E; [lia|].
  apply (IH fuel _ i' (j + 1) A'); lia.
Qed.

Lemma ValueAtQuantile_loop_total (k : nat) :
  forall (fuel : nat) (cap total : Z) (i : iterator) (j : Z),
    at_slot h i j -> countsLen h - 1 - j <= Z.of_nat k -> (k < fuel)%nat ->
    exists r i', ValueAtQuantile_loop fuel h cap total i = Some (r, i').
Proof.
  induction k as [|k IH]; intros fuel cap total i j A Hk Hf;
    (destruct fuel as [|fuel]; [lia|]); rewrite ValueAtQuantile_loop_S;
    walk_total IH E; [lia|].
  destruct (cap <=? wrap64 (total + countAtIdx i'));
    [eexists _, _; reflexivity|].
  apply (IH fuel cap _ i' (j + 1) A'); lia.
Qed.

Lemma Mean_loop_total (k : nat) :
  forall (fuel : nat) (total : Z) (i : iterator) (j : Z),
    at_slot h i j -> countsLen h - 1 - j <= Z.of_nat k -> (k < fuel)%nat ->
    exists r i', Mean_loop fuel h total i = Some (r, i').
Proof.
  induction k as [|k IH]; intros fuel total i j A Hk Hf;
    (destruct fuel as [|fuel]; [lia|]); rewrite Mean_loop_S;
    walk_total IH E; [lia|].
  cbv beta iota. apply (IH fuel _ i' (j + 1) A'); lia.
Qed.

Lemma StdDev_loop_total (k : nat) :
  forall (fuel : nat) (mean g : float) (i : iterator) (j : Z),
    at_slot h i j -> countsLen h - 1 - j <= Z.of_nat k -> (k < fuel)%nat ->
    exists r i', StdDev_loop fuel h mean g i = Some (r, i').
Proof.
  induction k as [|k IH]; intros fuel mean g i j A Hk Hf;
    (destruct fuel as [|fuel]; [lia|]); rewrite StdDev_loop_S;
    walk_total IH E; [lia|].
  cbv beta iota. apply (IH fuel mean _ i' (j + 1) A'); lia.
Qed.

End StatisticsReturn.

(** X16.  On a histogram with the geometry of [New], whatever its
    counters hold, [Min], [Max], [ValueAtQuantile], [Mean] and
    [StdDev] return a result: the iterator never reads outside the
    slice and never runs for more than [countsLen] steps. *)
Theorem statistics_return (h : Histogram) (q : float) :
  geometry h ->
  (exists x, Min h = Some x) /\ (exists x, Max h = Some x)
  /\ (exists x, ValueAtQuantile h q = Some x)
  /\ (exists x, Mean h = Some x) /\ (exists x, StdDev h = Some x).
Proof.
  intros G.
  pose proof (geo_buckets h G) as Hbc. pose proof (countsLen_half h G) as Hl.
  pose proof (half_pos h G) as Hp.
  assert (K : countsLen h - 1 - -1 <= Z.of_nat (Z.to_nat (countsLen h))) by nia.
  assert (F : (Z.to_nat (countsLen h) < walk_fuel h)%nat)
    by (unfold walk_fuel; lia).
  pose proof (at_slot_start h G) as A.
  assert (EM : exists x, Mean h = Some x).
  { unfold Mean.
    destruct (Mean_loop_total h G _ _ 0 _ _ A K F) as (r & i' & E).
    rewrite E. eauto. }
  split; [|split; [|split; [|split; [exact EM|]]]].
  - unfold Min.
    destruct (Min_loop_total h G _ _ 0 _ _ A K F) as (r & i' & E).
    rewrite E. eauto.
  - unfold Max.
    destruct (Max_loop_total h G _ _ 0 _ _ A K F) as (r & i' & E).
    rewrite E. eauto.
  - unfold ValueAtQuantile.
    destruct (ValueAtQuantile_loop_total h G _ _
                (countAtPercentile q (totalCount h)) 0 _ _ A K F)
      as (r & i' & E).
    rewrite E. simpl. eauto.
  - unfold StdDev. destruct EM as (m & ->).
    destruct (StdDev_loop_total h G _ _ m 0%float _ _ A K F) as (r & i' & E).
    rewrite E. eauto.
Qed.

Lemma statistics_return_witness :
  geometry sample_recorded
  /\ Min sample_recorded = Some 5 /\ Max sample_recorded = Some 896
  /\ ValueAtQuantile sample_recorded 100 = Some 927
  /\ (exists x, Mean sample_recorded = Some x).
Proof.
  split; [exact sample_recorded_geometry|].
  split; [vm_compute; reflexivity|]. split; [vm_compute; reflexivity|].
  split; [vm_compute; reflexivity|].
  apply (statistics_return sample_recorded 100 sample_recorded_geometry).
Defined.

(** ** The first recorded slot *)

Section FirstRecorded.

Variable h : Histogram.
Hypothesis G : geometry h.
Variables (k c : Z).
Hypothesis Hk : 0 <= k < countsLen h.
Hypothesis Hzero : forall j, 0 <= j < k -> counts h !! Z.to_nat j = Some 0.
Hypothesis Hc : counts h !! Z.to_nat k = Some c.
Hypothesis Hpos : 0 < totalCount h.

(** Before slot [k] the iterator has counted nothing. *)
Definition before_first (i : iterator) (j : Z) : Prop :=
  at_slot h i j /\ countToIdx i = 0 /\ j < k.

Lemma before_first_next (i : iterator) (j : Z) :
  before_first i j ->
  exists i', iterator_next h i = Some (true, i')
             /\ on_slot h i' (j + 1) 0
             /\ (j + 1 < k -> countAtIdx i' = 0 /\ before_first i' (j + 1))
             /\ (j + 1 = k -> countAtIdx i' = c).
Proof.
  intros (A & C0 & Hj).
  destruct (iterator_next_cases h G i j A)
    as [[L _]|[(_ & E & _)|(_ & Hlt & i' & E & O)]]; [lia|lia|].
  rewrite C0 in O. exists i'. split; [exact E|]. split; [exact O|].
  destruct O as (A' & Cnt & Cto & _).
  assert (Hj0 : -1 <= j) by (destruct A as (_ & _ & _ & _ & A); lia).
  split.
  - intros L. rewrite (Hzero (j + 1) ltac:(lia)) in Cnt.
    assert (Z0 : countAtIdx i' = 0) by congruence.
    split; [exact Z0|]. split; [exact A'|]. split; [|exact L].
    rewrite Cto, Z0. reflexivity.
  - intros Ek. rewrite Ek, Hc in Cnt. congruence.
Qed.

Lemma Min_loop_first (n : nat) :
  forall (fuel : nat) (i : iterator) (j : Z),
    c <> 0 -> before_first i j -> k - j = Z.of_nat (S n) -> (n < fuel)%nat ->
    exists i', Min_loop fuel h 0 i
               = Some (highestEquivalentValue h (slot_value h k), i').
Proof.
  induction n as [|n IH]; intros fuel i j Hc0 B Hn Hf;
    (destruct fuel as [|fuel]; [lia|]); rewrite Min_loop_S;
    destruct (before_first_next i j B) as (i' & E & O & Lt & Eq); rewrite E.
  - rewrite (Eq ltac:(lia)).
    replace (c =? 0) with false by (symmetry; apply Z.eqb_neq; exact Hc0).
    simpl. destruct O as (_ & _ & _ & _ & Eh).
    replace (j + 1) with k in Eh by lia. rewrite Eh. eauto.
  - destruct (Lt ltac:(lia)) as [Z0 B']. rewrite Z0. simpl.
    apply (IH fuel i' (j + 1) Hc0 B'); lia.
Qed.

Lemma Max_loop_first (n : nat) :
  forall (fuel : nat) (i : iterator) (j : Z),
    c <> 0 -> totalCount h <= c -> in64 c ->
    before_first i j -> k - j = Z.of_nat (S n) -> (S n < fuel)%nat ->
    exists i', Max_loop fuel h 0 i
               = Some (highestEquivalentValue h (slot_value h k), i').
Proof.
  induction n as [|n IH]; intros fuel i j Hc0 Ht Ic B Hn Hf;
    (destruct fuel as [|fuel]; [lia|]); rewrite Max_loop_S;
    destruct (before_first_next i j B) as (i' & E & O & Lt & Eq); rewrite E.
  - rewrite (Eq ltac:(lia)).
    replace (c =? 0) with false by (symmetry; apply Z.eqb_neq; exact Hc0).
    destruct O as (_ & _ & Cto & _ & Eh).
    replace (j + 1) with k in Eh by lia. rewrite Eh.
    destruct fuel as [|fuel]; [lia|]. rewrite Max_loop_S.
    rewrite iterator_next_done.
    + eauto.
    + rewrite Cto, (Eq ltac:(lia)), Z.add_0_l, wrap64_id by exact Ic. exact Ht.
  - destruct (Lt ltac:(lia)) as [Z0 B']. rewrite Z0. simpl.
    apply (IH fuel i' (j + 1) Hc0 Ht Ic B'); lia.
Qed.

Lemma ValueAtQuantile_loop_first (n : nat) :
  forall (fuel : nat) (cap : Z) (i : iterator) (j : Z),
    0 < cap <= c -> in64 c ->
    before_first i j -> k - j = Z.of_nat (S n) -> (n < fuel)%nat ->
    exists i', ValueAtQuantile_loop fuel h cap 0 i
               = Some (highestEquivalentValue h (slot_value h k), i').
Proof.
  induction n as [|n IH]; intros fuel cap i j Hcap Ic B Hn Hf;
    (destruct fuel as [|fuel]; [lia|]); rewrite ValueAtQuantile_loop_S;
    destruct (before_first_next i j B) as (i' & E & O & Lt & Eq); rewrite E.
  - rewrite (Eq ltac:(lia)), Z.add_0_l, wrap64_id by exact Ic.
    replace (cap <=? c) with true by (symmetry; apply Z.leb_le; lia).
    destruct O as (_ & _ & _ & Ev & _).
    replace (j + 1) with k in Ev by lia. rewrite Ev. eauto.
  - destruct (Lt ltac:(lia)) as [Z0 B']. rewrite Z0.
    change (wrap64 (0 + 0)) with 0.
    replace (cap <=? 0) with false by (symmetry; apply Z.leb_gt; lia).
    apply (IH fuel cap i' (j + 1) Hcap Ic B'); lia.
Qed.

End FirstRecorded.

(** X17.  [Min] finds the first recorded slot.  In a histogram with
    the geometry of [New] and a positive [totalCount], let [k] be the
    first index whose counter is not 0 (the representative value of
    that slot fitting an [int64], as it does for every slot a value was
    recorded in).  Then [Min] returns that representative value, which
    is the lowest value of its equivalence class. *)
Theorem Min_first_recorded (h : Histogram) (k c : Z) :
  geometry h -> 0 < totalCount h ->
  0 <= k < countsLen h ->
  (forall j, 0 <= j < k -> counts h !! Z.to_nat j = Some 0) ->
  counts h !! Z.to_nat k = Some c -> c <> 0 ->
  slot_fits h k ->
  Min h = Some (slot_value h k)
  /\ lowestEquivalentValue h (slot_value h k) = slot_value h k.
Proof.
  intros G Hpos Hk Hzero Hc Hc0 F.
  assert (B : before_first h k new_iterator (-1)).
  { split; [apply at_slot_start; exact G|]. split; [reflexivity|lia]. }
  destruct (Min_loop_first h G k c Hk Hzero Hc Hpos (Z.to_nat k) (walk_fuel h)
              new_iterator (-1) Hc0 B ltac:(lia) ltac:(unfold walk_fuel; lia))
    as (i' & E).
  unfold Min. rewrite E.
  rewrite (lowest_of_highest_slot_value h G k ltac:(lia) F).
  split; [reflexivity|].
  apply (lowestEquivalentValue_slot_value h G k); [lia|exact F].
Qed.

Lemma Min_first_recorded_witness :
  geometry sample_recorded /\ 0 < totalCount sample_recorded
  /\ 0 <= 5 < countsLen sample_recorded
  /\ counts sample_recorded !! Z.to_nat 5 = Some 1
  /\ slot_fits sample_recorded 5
  /\ Min sample_recorded = Some (slot_value sample_recorded 5)
  /\ slot_value sample_recorded 5 = 5.
Proof.
  assert (P : 0 < totalCount sample_recorded) by (vm_compute; reflexivity).
  assert (K : 0 <= 5 < countsLen sample_recorded)
    by (vm_compute; split; [discriminate|reflexivity]).
  assert (F : slot_fits sample_recorded 5) by (vm_compute; discriminate).
  assert (Z0 : forall j, 0 <= j < 5 ->
               counts sample_recorded !! Z.to_nat j = Some 0).
  { intros j Hj.
    assert (C : j = 0 \/ j = 1 \/ j = 2 \/ j = 3 \/ j = 4) by lia.
    destruct C as [->|[->|[->|[->| ->]]]]; reflexivity. }
  split; [exact sample_recorded_geometry|]. split; [exact P|].
  split; [exact K|]. split; [reflexivity|]. split; [exact F|].
  split; [|reflexivity].
  apply (Min_first_recorded sample_recorded 5 1 sample_recorded_geometry
           P K Z0 eq_refl); [discriminate | exact F].
Defined.

(** ** One value in an empty histogram *)

Lemma set_counts_functions (h : Histogram) (t : Z) (cs : list Z) :
  (forall x, lowestEquivalentValue (set_counts h t cs) x
             = lowestEquivalentValue h x)
  /\ (forall x, highestEquivalentValue (set_counts h t cs) x
                = highestEquivalentValue h x)
  /\ (forall j, slot_value (set_counts h t cs) j = slot_value h j)
  /\ (forall j, slot_fits (set_counts h t cs) j <-> slot_fits h j).
Proof.
  unfold slot_fits, slot_value, slot_bucket, slot_sub, mask_bits,
    highestEquivalentValue, nextNonEquivalentValue, sizeOfEquivalentValueRange,
    lowestEquivalentValue, valueFromIndex, getSubBucketIdx, getBucketIndex.
  cbv beta iota delta
    [set_counts unitMagnitude subBucketHalfCountMagnitude subBucketHalfCount
     subBucketMask subBucketCount].
  repeat split; intros; try reflexivity; assumption.
Qed.

Lemma lowestEquivalentValue_slot (h : Histogram) (v : Z) :
  geometry h -> in64 v -> 0 <= countsIndexFor h v ->
  lowestEquivalentValue h v = slot_value h (countsIndexFor h v)
  /\ highestEquivalentValue h v
     = highestEquivalentValue h (slot_value h (countsIndexFor h v)).
Proof.
  intros G Iv Hi.
  destruct (countsIndexFor_slot h G v Iv Hi) as (Hv & K & Eb & Es & F).
  assert (Hv2 : 0 <= v < 2 ^ 63) by (unfold in64 in Iv; lia).
  split.
  - unfold slot_value. rewrite Eb, Es. unfold lowestEquivalentValue.
    rewrite (getBucketIndex_value h G K v Hv2),
      (getSubBucketIdx_value h G K v Hv2). reflexivity.
  - rewrite (highestEquivalentValue_slot_value h G _ Hi F), Eb, Es.
    rewrite (highestEquivalentValue_value h G K v Hv2). reflexivity.
Qed.

(** X18.  One value in an empty histogram.  Let [h] have the geometry
    of [New], no recordings and all counters 0, and let it accept [v].
    After [RecordValues v n] with [n > 0], [Min] and [Max] both return
    [lowestEquivalentValue v], and [ValueAtQuantile q] returns
    [highestEquivalentValue v] for every [q] whose target count lies in
    [[1, n]]; for [n = 1] this is the case of [q = 100]. *)
Theorem single_value_statistics (h : Histogram) (v n : Z) :
  geometry h -> totalCount h = 0 -> Forall (fun c => c = 0) (counts h) ->
  in64 v -> accepts h v -> 0 < n -> in64 n ->
  exists h',
    RecordValues v n h = Some (None, h')
    /\ Min h' = Some (lowestEquivalentValue h v)
    /\ Max h' = Some (lowestEquivalentValue h v)
    /\ (forall q, 0 < countAtPercentile q n <= n ->
          ValueAtQuantile h' q = Some (highestEquivalentValue h v))
    /\ (n = 1 -> ValueAtQuantile h' 100 = Some (highestEquivalentValue h v)).
Proof.
  intros G T0 Z0 Iv A Hn In.
  pose proof (proj2 (countsIndexFor_in_range h v G Iv) A) as R.
  set (idx := countsIndexFor h v) in *.
  destruct (RecordValues_cases h v n) as [[Hi E]|[[Hi [Hn' E]]|[c0 [Hi [Hc0 E]]]]];
    fold idx in Hi; [lia| |].
  { exfalso. fold idx in Hn'. apply lookup_ge_None in Hn'.
    pose proof (geo_counts h G). lia. }
  fold idx in Hc0, E.
  assert (c0 = 0) by (exact (proj1 (Forall_lookup _ _) Z0 _ _ Hc0)). subst c0.
  rewrite T0, !Z.add_0_l, (wrap64_id n In) in E.
  set (h' := set_counts h n (<[Z.to_nat idx := n]> (counts h))) in *.
  exists h'. split; [exact E|].
  assert (SG : same_geometry h h')
    by (apply same_geometry_set_counts, length_insert).
  pose proof (same_geometry_geometry h h' SG G) as G'.
  destruct (set_counts_functions h n (<[Z.to_nat idx := n]> (counts h)))
    as (TL & TH & TS & TF). fold h' in TL, TH, TS, TF.
  destruct (countsIndexFor_slot h G v Iv ltac:(lia)) as (_ & _ & _ & _ & F).
  fold idx in F.
  destruct (lowestEquivalentValue_slot h v G Iv ltac:(lia)) as [EL EH].
  fold idx in EL, EH.
  assert (Hk' : 0 <= idx < countsLen h') by exact R.
  assert (Hlen : (Z.to_nat idx < length (counts h))%nat)
    by (apply lookup_lt_is_Some; eauto).
  assert (Hzero : forall j, 0 <= j < idx ->
                    counts h' !! Z.to_nat j = Some 0).
  { intros j Hj. unfold h'. simpl counts.
    rewrite list_lookup_insert_ne by lia.
    destruct (lookup_lt_is_Some_2 (counts h) (Z.to_nat j) ltac:(lia)) as [c Hc].
    rewrite Hc. f_equal. exact (proj1 (Forall_lookup _ _) Z0 _ _ Hc). }
  assert (Hc : counts h' !! Z.to_nat idx = Some n).
  { unfold h'. simpl counts. apply list_lookup_insert_eq. exact Hlen. }
  assert (Hpos : 0 < totalCount h') by exact Hn.
  assert (B : before_first h' idx new_iterator (-1)).
  { split; [apply at_slot_start; exact G'|]. split; [reflexivity|lia]. }
  assert (Fuel : (S (Z.to_nat idx) < walk_fuel h')%nat).
  { unfold walk_fuel.
    change (countsLen h') with (countsLen h). lia. }
  assert (LH : lowestEquivalentValue h'
                 (highestEquivalentValue h' (slot_value h' idx))
               = lowestEquivalentValue h v).
  { rewrite TL, TH, TS, EL.
    apply (lowest_of_highest_slot_value h G idx); [lia|exact F]. }
  assert (VQ : forall cap, 0 < cap <= n ->
                 option_map fst
                   (ValueAtQuantile_loop (walk_fuel h') h' cap 0 new_iterator)
                 = Some (highestEquivalentValue h v)).
  { intros cap Hcap.
    destruct (ValueAtQuantile_loop_first h' G' idx n Hk' Hzero Hc Hpos
                (Z.to_nat idx) (walk_fuel h') cap new_iterator (-1)
                Hcap In B ltac:(lia) ltac:(lia)) as (i' & E').
    rewrite E'. simpl option_map. rewrite TH, TS, <- EH. reflexivity. }
  split; [|split; [|split]].
  - destruct (Min_loop_first h' G' idx n Hk' Hzero Hc Hpos (Z.to_nat idx)
                (walk_fuel h') new_iterator (-1) ltac:(lia) B
                ltac:(lia) ltac:(lia)) as (i' & E').
    unfold Min. rewrite E', LH. reflexivity.
  - destruct (Max_loop_first h' G' idx n Hk' Hzero Hc Hpos (Z.to_nat idx)
                (walk_fuel h') new_iterator (-1) ltac:(lia)
                ltac:(unfold h'; simpl totalCount; lia) In B
                ltac:(lia) Fuel) as (i' & E').
    unfold Max. rewrite E', LH. reflexivity.
  - intros q Hq. unfold ValueAtQuantile.
    change (totalCount h') with n. apply VQ. exact Hq.
  - intros ->. unfold ValueAtQuantile. change (totalCount h') with 1.
    change (countAtPercentile 100 1) with 1. apply VQ. lia.
Qed.

Lemma single_value_statistics_witness :
  geometry sample_histogram /\ totalCount sample_histogram = 0
  /\ accepts sample_histogram 900
  /\ lowestEquivalentValue sample_histogram 900 = 896
  /\ highestEquivalentValue sample_histogram 900 = 927
  /\ exists h',
       RecordValues 900 2 sample_histogram = Some (None, h')
       /\ Min h' = Some (lowestEquivalentValue sample_histogram 900)
       /\ Max h' = Some (lowestEquivalentValue sample_histogram 900)
       /\ (forall q, 0 < countAtPercentile q 2 <= 2 ->
             ValueAtQuantile h' q
             = Some (highestEquivalentValue sample_histogram 900))
       /\ (2 = 1 -> ValueAtQuantile h' 100
                    = Some (highestEquivalentValue sample_histogram 900)).
Proof.
  assert (T : totalCount sample_histogram = 0) by reflexivity.
  assert (Z0 : Forall (fun c => c = 0) (counts sample_histogram))
    by (vm_compute; repeat constructor).
  assert (A : accepts sample_histogram 900)
    by (vm_compute; repeat split; discriminate).
  split; [exact sample_geometry|]. split; [exact T|]. split; [exact A|].
  split; [vm_compute; reflexivity|]. split; [vm_compute; reflexivity|].
  apply (single_value_statistics sample_histogram 900 2 sample_geometry T Z0).
  - apply in64_small; lia.
  - exact A.
  - lia.
  - apply in64_small; lia.
Defined.

(** ** The distribution of an empty histogram *)

(** X19.  When nothing is recorded ([totalCount <= 0]),
    [CumulativeDistribution] returns exactly one bracket, of quantile
    100 and count 0, whatever [math.Log] and [math.Pow] compute: the
    percentile iterator reports its last value at once and never reads
    a counter. *)
Theorem CumulativeDistribution_of_empty
    (math_Log : float -> float) (math_Pow : float -> float -> float)
    (h : Histogram) (fuel : nat) :
  totalCount h <= 0 -> (2 <= fuel)%nat ->
  CumulativeDistribution math_Log math_Pow fuel h
  = Some [ {| Quantile := 100%float; Count := 0 |} ].
Proof.
  intros T Hf.
  destruct fuel as [|[|fuel]]; [lia|lia|].
  assert (E : (0 <? totalCount h) = false) by (apply Z.ltb_ge; exact T).
  unfold CumulativeDistribution, new_pIterator.
  cbn [CumulativeDistribution_loop].
  unfold pIterator_next at 1.
  cbn [p_iterator countToIdx new_iterator seenLastValue].
  rewrite E. cbn [negb].
  unfold pIterator_next.
  cbn [p_iterator countToIdx new_iterator seenLastValue percentile].
  rewrite E. reflexivity.
Qed.

Lemma CumulativeDistribution_of_empty_witness :
  totalCount sample_histogram <= 0 /\ (2 <= 2)%nat
  /\ CumulativeDistribution (fun x => x) (fun x _ => x) 2 sample_histogram
     = Some [ {| Quantile := 100%float; Count := 0 |} ].
Proof.
  assert (T : totalCount sample_histogram <= 0) by (vm_compute; discriminate).
  split; [exact T|]. split; [lia|].
  apply (CumulativeDistribution_of_empty (fun x => x) (fun x _ => x)
           sample_histogram 2 T).
  lia.
Defined.
